(** * Linear regression by batch gradient descent (regression.py)

    A shallow embedding of [normalize], [load_data], [cost_function],
    [plot_cost] and [gradient_descent], and the properties of the numeric
    core that the specification states about them.

    Numbers.  NumPy's float64 is embedded as the real numbers extended with
    the IEEE 754 special values: arithmetic is exact (no rounding, no
    overflow, a single zero), and the special values arise and propagate as
    IEEE 754 prescribes (x/0, 0/0, inf-inf, 0*inf, sqrt of a negative).

    Arrays.  A 2-D ndarray is an object of the store: a function receives
    and returns references, an operator allocates its result, np.transpose
    returns a view of its operand's buffer and only an indexed assignment
    writes into an existing buffer.  1-D arrays (axis reductions, the rows
    met by the builtin sum) are never written to by the program and are
    carried as values. *)

From Stdlib Require Import Reals Lra Lia ZArith List.
From Stdlib Require Floats.
From stdpp Require Import base list.
Import ListNotations.

Local Open Scope R_scope.

(* ================================================================== *)
(** ** Numbers *)

Module Float.

Inductive npfloat : Type :=
| Real (r : R)
| PosInf
| NegInf
| NaN.

Definition is_finite (x : npfloat) : Prop :=
  match x with Real _ => True | _ => False end.

(** The sign of a real, by the total order of R. *)
Definition Rsign (r : R) : comparison :=
  match total_order_T r 0 with
  | inleft (left _) => Lt
  | inleft (right _) => Eq
  | inright _ => Gt
  end.

Definition fadd (x y : npfloat) : npfloat :=
  match x, y with
  | NaN, _ | _, NaN => NaN
  | Real a, Real b => Real (a + b)
  | PosInf, NegInf | NegInf, PosInf => NaN
  | PosInf, _ | _, PosInf => PosInf
  | NegInf, _ | _, NegInf => NegInf
  end.

Definition fsub (x y : npfloat) : npfloat :=
  match x, y with
  | NaN, _ | _, NaN => NaN
  | Real a, Real b => Real (a - b)
  | PosInf, PosInf | NegInf, NegInf => NaN
  | PosInf, _ | _, NegInf => PosInf
  | NegInf, _ | _, PosInf => NegInf
  end.

(** An infinity scaled by a value of sign [s]. *)
Definition inf_signed (pos : bool) (s : comparison) : npfloat :=
  match s with
  | Eq => NaN
  | Gt => if pos then PosInf else NegInf
  | Lt => if pos then NegInf else PosInf
  end.

Definition fmul (x y : npfloat) : npfloat :=
  match x, y with
  | NaN, _ | _, NaN => NaN
  | Real a, Real b => Real (a * b)
  | PosInf, Real b | Real b, PosInf => inf_signed true (Rsign b)
  | NegInf, Real b | Real b, NegInf => inf_signed false (Rsign b)
  | PosInf, PosInf | NegInf, NegInf => PosInf
  | PosInf, NegInf | NegInf, PosInf => NegInf
  end.

(** NumPy's true division: a zero divisor raises nothing, the quotient is
    an infinity of the dividend's sign, or NaN for 0/0. *)
Definition fdiv (x y : npfloat) : npfloat :=
  match x, y with
  | NaN, _ | _, NaN => NaN
  | Real a, Real b =>
      match Rsign b with
      | Eq => match Rsign a with Eq => NaN | Gt => PosInf | Lt => NegInf end
      | _ => Real (a / b)
      end
  | Real _, PosInf | Real _, NegInf => Real 0
  | PosInf, Real b => match Rsign b with Lt => NegInf | _ => PosInf end
  | NegInf, Real b => match Rsign b with Lt => PosInf | _ => NegInf end
  | _, _ => NaN
  end.

Definition fsqrt (x : npfloat) : npfloat :=
  match x with
  | Real a => match Rsign a with Lt => NaN | _ => Real (sqrt a) end
  | PosInf => PosInf
  | NegInf | NaN => NaN
  end.

(** np.square *)
Definition fsquare (x : npfloat) : npfloat := fmul x x.

(** The real behind a finite value (0 for the special values). *)
Definition to_R (x : npfloat) : R :=
  match x with Real a => a | _ => 0 end.

End Float.
Export Float.

(* ================================================================== *)
(** ** Arrays *)

(** A 1-D array, shape (length v,). *)
Definition vector : Type := list npfloat.

(** A 2-D array of shape (nrows, ncols), stored by rows. *)
Record matrix : Type := Mat {
  nrows : nat;
  ncols : nat;
  rows : list (list npfloat)
}.

Definition shape (A : matrix) : nat * nat := (nrows A, ncols A).

(** A[i][j] *)
Definition get (A : matrix) (i j : nat) : npfloat :=
  nth j (nth i (rows A) []) (Real 0).

(** The (r, c) array whose entry (i, j) is [f i j]. *)
Definition tab (r c : nat) (f : nat -> nat -> npfloat) : matrix :=
  Mat r c (map (fun i => map (fun j => f i j) (seq 0 c)) (seq 0 r)).

Definition vget (v : vector) (j : nat) : npfloat := nth j v (Real 0).

Definition vtab (n : nat) (f : nat -> npfloat) : vector := map f (seq 0 n).

(** Sum of f 0 .. f (n-1), accumulated from 0 as a reduction does. *)
Definition fsum (n : nat) (f : nat -> npfloat) : npfloat :=
  fold_left (fun acc i => fadd acc (f i)) (seq 0 n) (Real 0).

Definition transpose (A : matrix) : matrix :=
  tab (ncols A) (nrows A) (fun i j => get A j i).

(** Matrix product of an (r, k) by a (k, c) array. *)
Definition mmul (A B : matrix) : matrix :=
  tab (nrows A) (ncols B)
      (fun i j => fsum (ncols A) (fun k => fmul (get A i k) (get B k j))).

(** Entrywise combination of two arrays of one shape. *)
Definition mzip (f : npfloat -> npfloat -> npfloat) (A B : matrix) : matrix :=
  tab (nrows A) (ncols A) (fun i j => f (get A i j) (get B i j)).

Definition msub : matrix -> matrix -> matrix := mzip fsub.

Definition mmap (f : npfloat -> npfloat) (A : matrix) : matrix :=
  tab (nrows A) (ncols A) (fun i j => f (get A i j)).

(** scalar * array *)
Definition mscale (c : npfloat) : matrix -> matrix := mmap (fmul c).

(** A 1-D array of length n seen as a (1, n) array, as broadcasting does. *)
Definition as_row (v : vector) : matrix := Mat 1 (length v) [v].

(** NumPy broadcasting of one axis: equal lengths, or one of them 1. *)
Definition bdim (a b : nat) : option nat :=
  if (a =? b)%nat then Some a
  else if (a =? 1)%nat then Some b
  else if (b =? 1)%nat then Some a
  else None.

(** The index read along an axis of length [d] for the output index [i]. *)
Definition bidx (d i : nat) : nat := if (d =? 1)%nat then 0%nat else i.

(* ================================================================== *)
(** ** Results, the store and the monad of a Python run *)

Inductive exn : Type :=
| ValueError
| ZeroDivisionError
| IndexError
| InvalidRef.   (* a reference to no object of the store: not a Python
                   exception, excluded by the hypotheses on references *)

Inductive res (A : Type) : Type :=
| Ok (a : A)
| Raise (e : exn).
Arguments Ok {A} a.
Arguments Raise {A} e.

(** An operator applied with broadcasting; shapes that do not broadcast
    raise ValueError. *)
Definition broadcast (f : npfloat -> npfloat -> npfloat) (A B : matrix)
  : res matrix :=
  match bdim (nrows A) (nrows B), bdim (ncols A) (ncols B) with
  | Some r, Some c =>
      Ok (tab r c (fun i j =>
            f (get A (bidx (nrows A) i) (bidx (ncols A) j))
              (get B (bidx (nrows B) i) (bidx (ncols B) j))))
  | _, _ => Raise ValueError
  end.

(** The operator @ on 2-D arrays. *)
Definition matmul (A B : matrix) : res matrix :=
  if (ncols A =? nrows B)%nat then Ok (mmul A B) else Raise ValueError.

(** A Python value that is a float or a 1-D array. *)
Inductive pyval : Type :=
| PyNum (x : npfloat)
| PyArr (v : vector).

(** Row i of a 2-D array. *)
Definition row (A : matrix) (i : nat) : vector := vtab (ncols A) (get A i).

(** acc + row, for the accumulator of the builtin sum. *)
Definition py_add (acc : pyval) (r : vector) : pyval :=
  match acc with
  | PyNum x => PyArr (map (fadd x) r)
  | PyArr v => PyArr (vtab (length r) (fun j => fadd (vget v j) (vget r j)))
  end.

(** The builtin sum over a 2-D array: 0 + A[0] + A[1] + ... *)
Definition sum_rows (A : matrix) : pyval :=
  fold_left (fun acc i => py_add acc (row A i)) (seq 0 (nrows A))
            (PyNum (Real 0)).

(** float * value *)
Definition py_mul (c : npfloat) (v : pyval) : pyval :=
  match v with
  | PyNum x => PyNum (fmul c x)
  | PyArr u => PyArr (map (fmul c) u)
  end.

(** x / d for an int d: true division (the program is Python 3, it uses
    the operator @), a zero divisor raises ZeroDivisionError. *)
Definition py_truediv (x : npfloat) (d : Z) : res npfloat :=
  if (d =? 0)%Z then Raise ZeroDivisionError
  else Ok (fdiv x (Real (IZR d))).

(** The scalar stored by an item assignment: a number, or an array of
    size 1. *)
Definition as_scalar (v : pyval) : res npfloat :=
  match v with
  | PyNum x => Ok x
  | PyArr [x] => Ok x
  | PyArr _ => Raise ValueError
  end.

(** A[i][j] = x on the stored rows. *)
Definition mset (A : matrix) (i j : nat) (x : npfloat) : matrix :=
  Mat (nrows A) (ncols A) (<[i := <[j := x]> (nth i (rows A) [])]> (rows A)).

(** The store of 2-D arrays, and the figures shown so far. *)
Record world : Type := World {
  heap : list matrix;
  figures : list matrix
}.

(** An ndarray object: a buffer of the store, read as it is or transposed. *)
Record array : Type := Array {
  buf : nat;
  transposed : bool
}.

Definition M (A : Type) : Type := world -> res A * world.

Definition ret {A} (a : A) : M A := fun w => (Ok a, w).

Definition raise {A} (e : exn) : M A := fun w => (Raise e, w).

Definition bind {A B} (c : M A) (k : A -> M B) : M B :=
  fun w =>
    match c w with
    | (Ok a, w') => k a w'
    | (Raise e, w') => (Raise e, w')
    end.

Notation "x <- c ;; k" := (bind c (fun x => k))
  (at level 100, c at next level, right associativity).
Notation "c ;;; k" := (bind c (fun _ => k))
  (at level 100, right associativity).

Definition lift {A} (r : res A) : M A := fun w => (r, w).

(** What an array object denotes in a store. *)
Definition contents (a : array) (w : world) : option matrix :=
  match heap w !! buf a with
  | Some A => Some (if transposed a then transpose A else A)
  | None => None
  end.

Definition read (a : array) : M matrix :=
  fun w =>
    match contents a w with
    | Some A => (Ok A, w)
    | None => (Raise InvalidRef, w)
    end.

(** A new array object on a fresh buffer. *)
Definition alloc (A : matrix) : M array :=
  fun w =>
    (Ok (Array (length (heap w)) false),
     World (heap w ++ [A]) (figures w)).

(** Entry (i, j) of the object [a] overwritten in its buffer. *)
Definition write (a : array) (i j : nat) (x : npfloat) : M unit :=
  fun w =>
    match heap w !! buf a with
    | Some A =>
        let A' := if transposed a then mset A j i x else mset A i j x in
        (Ok tt, World (<[buf a := A']> (heap w)) (figures w))
    | None => (Raise InvalidRef, w)
    end.

(** for i in l: s = body i s *)
Fixpoint for_each {S} (l : list nat) (body : nat -> S -> M S) (s : S) : M S :=
  match l with
  | [] => ret s
  | i :: l' => s' <- body i s ;; for_each l' body s'
  end.

(** range(n) for a Python int n *)
Definition range (n : Z) : list nat := seq 0 (Z.to_nat n).

(* ================================================================== *)
(** ** NumPy and builtin operations used by the program *)

(** A @ B *)
Definition np_matmul (a b : array) : M array :=
  A <- read a ;; B <- read b ;; C <- lift (matmul A B) ;; alloc C.

(** A - B *)
Definition np_subtract (a b : array) : M array :=
  A <- read a ;; B <- read b ;; C <- lift (broadcast fsub A B) ;; alloc C.

(** A - v and A / v for a 1-D array v *)
Definition np_subtract_vec (a : array) (v : vector) : M array :=
  A <- read a ;; C <- lift (broadcast fsub A (as_row v)) ;; alloc C.

Definition np_divide_vec (a : array) (v : vector) : M array :=
  A <- read a ;; C <- lift (broadcast fdiv A (as_row v)) ;; alloc C.

(** np.transpose(A): a view, nothing is allocated. *)
Definition np_transpose (a : array) : M array :=
  _ <- read a ;; ret (Array (buf a) (negb (transposed a))).

(** np.square(A) *)
Definition np_square (a : array) : M array :=
  A <- read a ;; alloc (mmap fsquare A).

(** c * A for a Python float c *)
Definition float_mul (c : npfloat) (a : array) : M array :=
  A <- read a ;; alloc (mscale c A).

(** np.zeros((r, c)); a negative dimension raises ValueError. *)
Definition np_zeros (r : Z) (c : nat) : M array :=
  if (r <? 0)%Z then raise ValueError
  else alloc (tab (Z.to_nat r) c (fun _ _ => Real 0)).

(** np.ones((r, c)) *)
Definition np_ones (r c : nat) : M array :=
  alloc (tab r c (fun _ _ => Real 1)).

(** Column means, variances and standard deviations of a 2-D array: the
    mean is the sum of the column over the number of rows, the variance
    the mean of the squared deviations from the mean, the standard
    deviation its square root. *)
Definition col_mean (A : matrix) (j : nat) : npfloat :=
  fdiv (fsum (nrows A) (fun i => get A i j)) (Real (INR (nrows A))).

Definition col_var (A : matrix) (j : nat) : npfloat :=
  fdiv (fsum (nrows A) (fun i => fsquare (fsub (get A i j) (col_mean A j))))
       (Real (INR (nrows A))).

Definition col_std (A : matrix) (j : nat) : npfloat := fsqrt (col_var A j).

(** np.mean(A, axis=0) and np.std(A, axis=0) *)
Definition np_mean0 (a : array) : M vector :=
  A <- read a ;; ret (vtab (ncols A) (col_mean A)).

Definition np_std0 (a : array) : M vector :=
  A <- read a ;; ret (vtab (ncols A) (col_std A)).

(** np.append(A, B, axis=1) *)
Definition np_append1 (a b : array) : M array :=
  A <- read a ;; B <- read b ;;
  if (nrows A =? nrows B)%nat then
    alloc (tab (nrows A) (ncols A + ncols B)
             (fun i j => if (j <? ncols A)%nat then get A i j
                         else get B i (j - ncols A)))
  else raise ValueError.

(** sum(A), the builtin *)
Definition py_sum (a : array) : M pyval :=
  A <- read a ;; ret (sum_rows A).

(** a[i][j] = v, for indices that are not negative *)
Definition setitem (a : array) (i j : nat) (v : pyval) : M unit :=
  A <- read a ;;
  if (i <? nrows A)%nat && (j <? ncols A)%nat then
    x <- lift (as_scalar v) ;; write a i j x
  else raise IndexError.

(* ================================================================== *)
(** ** The program *)

(** normalize(X): (X - mean) / std, column by column. *)
Definition normalize (X : array) : M array :=
  mu <- np_mean0 X ;;
  sigma <- np_std0 X ;;
  t <- np_subtract_vec X mu ;;
  np_divide_vec t sigma.

(** load_data(path), from the frame [data] that pd.read_csv(path,
    header=None) parsed: the features are all columns but the last, the
    labels the last one. *)
Definition load_data (data : matrix) : M (array * array * array * Z * Z) :=
  let m := nrows data in
  X <- alloc (tab m (ncols data - 1) (get data)) ;;
  X <- (S <- read X ;;
        if (1 <? ncols S)%nat then normalize X else ret X) ;;
  ones <- np_ones m 1 ;;
  X <- np_append1 ones X ;;
  y <- (if (ncols data =? 0)%nat then raise IndexError
        else alloc (tab m 1 (fun i _ => get data i (ncols data - 1)))) ;;
  S <- read X ;;
  let n := ncols S in
  theta <- np_zeros (Z.of_nat n) 1 ;;
  ret (X, y, theta, Z.of_nat m, Z.of_nat n).

(** cost_function(X, y, theta, m) *)
Definition cost_function (X y theta : array) (m : Z) : M pyval :=
  predictions <- np_matmul X theta ;;
  t <- np_subtract predictions y ;;
  sqr_err <- np_square t ;;
  c <- lift (py_truediv (Real 1) (2 * m)) ;;
  s <- py_sum sqr_err ;;
  ret (py_mul c s).

(** plot_cost(costs): the values of the array are drawn and shown. *)
Definition plot_cost (costs : array) : M unit :=
  fun w =>
    match contents costs w with
    | Some A => (Ok tt, World (heap w) (figures w ++ [A]))
    | None => (Raise InvalidRef, w)
    end.

(** The three statements that rebind theta in the loop of
    gradient_descent. *)
Definition update_theta (X y theta : array) (alpha : npfloat) (m : Z)
  : M array :=
  t <- np_matmul X theta ;;
  t <- np_subtract t y ;;
  difference <- np_transpose t ;;
  t <- np_matmul difference X ;;
  delta <- np_transpose t ;;
  c <- lift (py_truediv alpha m) ;;
  t <- float_mul c delta ;;
  np_subtract theta t.

(** The body of the loop of gradient_descent, for the index i. *)
Definition gd_body (X y : array) (alpha : npfloat) (m : Z) (j_vals : array)
    (i : nat) (theta : array) : M array :=
  theta <- update_theta X y theta alpha m ;;
  J <- cost_function X y theta m ;;
  setitem j_vals i 0 J ;;;
  ret theta.

(** gradient_descent(X, y, theta, alpha, num_iters, m) *)
Definition gradient_descent (X y theta : array) (alpha : npfloat)
    (num_iters m : Z) : M array :=
  j_vals <- np_zeros num_iters 1 ;;
  theta <- for_each (range num_iters) (gd_body X y alpha m j_vals) theta ;;
  plot_cost j_vals ;;;
  ret theta.

(* ================================================================== *)
(** ** The formulas of the specification *)

(** theta - c * X^T (X theta - y), the direct form of the update. *)
Definition direct_update (X y theta : matrix) (c : npfloat) : matrix :=
  msub theta (mscale c (mmul (transpose X) (msub (mmul X theta) y))).

(** X_i . theta, the dot product of row i of X with the column theta. *)
Definition dot_row (X theta : matrix) (i : nat) : npfloat :=
  fsum (ncols X) (fun k => fmul (get X i k) (get theta k 0)).

(** (1/(2m)) * sum over the rows of X of (X_i . theta - y_i)^2 *)
Definition mse_cost (X y theta : matrix) (m : Z) : npfloat :=
  fmul (Real (1 / (2 * IZR m)))
       (fsum (nrows X)
          (fun i => fsquare (fsub (dot_row X theta i) (get y i 0)))).

(* ================================================================== *)
(** ** Runs and values *)

(** The run of [c] from [w] returns [a] and leaves the store [w']. *)
Definition runs {A} (c : M A) (w : world) (a : A) (w' : world) : Prop :=
  c w = (Ok a, w').

(** The run of [c] from [w] raises [e] and leaves the store [w']. *)
Definition raises {A} (c : M A) (w : world) (e : exn) (w' : world) : Prop :=
  c w = (Raise e, w').

(** The store after an allocation, and the object allocated. *)
Definition push (A : matrix) (w : world) : world :=
  World (heap w ++ [A]) (figures w).

Definition fresh (w : world) : array := Array (length (heap w)) false.

(** [w'] keeps every buffer of [w] as it is, may hold new ones, and shows
    the same figures. *)
Definition allocates (w w' : world) : Prop :=
  heap w `prefix_of` heap w' /\ figures w' = figures w.

(** The array held by theta after the three statements of the update, as
    the program computes it. *)
Definition update_value (X y theta : matrix) (c : npfloat) : matrix :=
  msub theta
       (mscale c (transpose (mmul (transpose (msub (mmul X theta) y)) X))).

(** The value returned by cost_function, as the program computes it. *)
Definition cost_value (X y theta : matrix) (m : Z) : pyval :=
  py_mul (fdiv (Real 1) (Real (IZR (2 * m))))
         (sum_rows (mmap fsquare (msub (mmul X theta) y))).

(** theta after k update steps. *)
Fixpoint theta_after (X y theta : matrix) (c : npfloat) (k : nat) : matrix :=
  match k with
  | O => theta
  | S k' => update_value X y (theta_after X y theta c k') c
  end.

(** The scalar that an item assignment stores for a cost (0 where the cost
    is not a scalar and the assignment raises). *)
Definition cost_scalar (X y theta : matrix) (m : Z) : npfloat :=
  match as_scalar (cost_value X y theta m) with
  | Ok x => x
  | Raise _ => Real 0
  end.

(** The cost array of a run of n iterations once k of them are done. *)
Definition history (X y theta : matrix) (c : npfloat) (m : Z) (n k : nat)
  : matrix :=
  tab n 1 (fun i _ =>
    if (i <? k)%nat then cost_scalar X y (theta_after X y theta c (S i)) m
    else Real 0).

(** The state of the loop of gradient_descent before the iteration of
    index k, in a run of n iterations started in the store [w0]: the
    buffers of [w0] are as they were, j_vals is the object allocated first
    and holds the k costs recorded, theta is an object on another buffer
    and holds the result of k updates. *)
Definition gd_inv (w0 : world) (X y theta : matrix) (c : npfloat) (m : Z)
    (n k : nat) (th : array) (w : world) : Prop :=
  heap w0 `prefix_of` heap w /\
  figures w = figures w0 /\
  contents (fresh w0) w = Some (history X y theta c m n k) /\
  contents th w = Some (theta_after X y theta c k) /\
  buf th <> length (heap w0).

(* ================================================================== *)
(** ** A small data set

    Two examples with one feature and a bias column, labels that the
    parameters (0, 1) fit exactly. *)

Definition ex_X : matrix := Mat 2 2 [[Real 1; Real 1]; [Real 1; Real 2]].
Definition ex_y : matrix := Mat 2 1 [[Real 1]; [Real 2]].
Definition ex_theta : matrix := Mat 2 1 [[Real 0]; [Real 1]].

(** The store of a caller that holds the three arrays, in this order. *)
Definition ex_world : world := World [ex_X; ex_y; ex_theta] [].

Definition ref_X : array := Array 0 false.
Definition ref_y : array := Array 1 false.
Definition ref_theta : array := Array 2 false.

(** A configuration that the specification calls invalid. *)
Definition nonpositive (x : npfloat) : Prop :=
  match x with
  | Real a => a <= 0
  | NegInf => True
  | PosInf | NaN => False
  end.

Definition invalid_config (alpha : npfloat) (num_iters m : Z) : Prop :=
  (m <= 0)%Z \/ (num_iters < 0)%Z \/ nonpositive alpha.

(** The array returned by normalize, as the program computes it. *)
Definition normalize_value (A : matrix) : matrix :=
  tab (nrows A) (ncols A)
      (fun i j => fdiv (fsub (get A i j) (col_mean A j)) (col_std A j)).

(** The design matrix made of a column of ones followed by the columns of
    [A]. *)
Definition with_bias (A : matrix) : matrix :=
  tab (nrows A) (1 + ncols A)
      (fun i j => if (j <? 1)%nat then Real 1 else get A i (j - 1)).

(* ================================================================== *)
(** ** Column statistics over the reals *)

(** Sum over R of f 0 .. f (n-1). *)
Definition Rsum (n : nat) (f : nat -> R) : R :=
  fold_left (fun acc i => acc + f i) (seq 0 n) 0.

(** Every entry of the array is a finite number. *)
Definition finite_array (A : matrix) : Prop :=
  forall i j, (i < nrows A)%nat -> (j < ncols A)%nat -> is_finite (get A i j).

Definition entry (A : matrix) (i j : nat) : R := to_R (get A i j).

(** mean_j and stddev_j of the specification. *)
Definition mean_R (A : matrix) (j : nat) : R :=
  Rsum (nrows A) (fun i => entry A i j) / INR (nrows A).

Definition var_R (A : matrix) (j : nat) : R :=
  Rsum (nrows A)
       (fun i => (entry A i j - mean_R A j) * (entry A i j - mean_R A j))
  / INR (nrows A).

Definition std_R (A : matrix) (j : nat) : R := sqrt (var_R A j).

(** X_i . theta and the cost of the specification, over the reals. *)
Definition dot_R (X theta : matrix) (i : nat) : R :=
  Rsum (ncols X) (fun k => entry X i k * entry theta k 0).

Definition mse_R (X y theta : matrix) (m : Z) : R :=
  1 / (2 * IZR m)
  * Rsum (nrows X)
      (fun i => (dot_R X theta i - entry y i 0)
                * (dot_R X theta i - entry y i 0)).

(** The array whose column j is (X[:,j] - mean_j) / stddev_j. *)
Definition standardized (A : matrix) : matrix :=
  tab (nrows A) (ncols A)
      (fun i j => Real ((entry A i j - mean_R A j) / std_R A j)).

(** A frame of two features, the first one constant, and a label. *)
Definition ex_features : matrix :=
  Mat 2 2 [[Real 1; Real 2]; [Real 1; Real 4]].

Definition ex_frame : matrix :=
  Mat 2 3 [[Real 1; Real 2; Real 5]; [Real 3; Real 4; Real 9]].

(** The run of [c] keeps the buffers [h0] as they are, whatever its
    outcome, and a value it returns satisfies [Q]. *)
Definition preserves (h0 : list matrix) {A} (c : M A) (Q : A -> Prop) : Prop :=
  forall w,
    h0 `prefix_of` heap w ->
    h0 `prefix_of` heap (snd (c w)) /\
    forall a, fst (c w) = Ok a -> Q a.

(** Two features that both vary. *)
Definition ex_varied : matrix := Mat 2 2 [[Real 1; Real 2]; [Real 3; Real 4]].

(** A frame of one feature and a label. *)
Definition ex_frame1 : matrix := Mat 2 2 [[Real 1; Real 5]; [Real 3; Real 9]].

(** The store before anything is allocated. *)
Definition empty_world : world := World [] [].

(** The run of [c] shows no figure, whatever its outcome. *)
Definition quiet {A} (c : M A) : Prop :=
  forall w, figures (snd (c w)) = figures w.

(** The gradient of the specification over the reals, for the parameter
    j: the sum over the rows of X[i][j] * (X_i . theta - y_i). *)
Definition grad_R (X y theta : matrix) (j : nat) : R :=
  Rsum (nrows X) (fun i => entry X i j * (dot_R X theta i - entry y i 0)).

(** Two arrays of one shape with the same entries. *)
Definition same_entries (A B : matrix) : Prop :=
  shape A = shape B /\
  forall i j, (i < nrows B)%nat -> (j < ncols B)%nat -> get A i j = get B i j.

(** A parameter array too short for [ex_X]. *)
Definition ex_short_theta : matrix := Mat 1 1 [[Real 0]].

Definition ex_bad_world : world := World [ex_X; ex_y; ex_short_theta] [].

(** [ex_features] with 10 added to its first column and 20 to its second. *)
Definition ex_shifted : matrix :=
  Mat 2 2 [[Real 11; Real 22]; [Real 11; Real 24]].

(** [ex_X] and [ex_y] with their two rows exchanged. *)
Definition ex_X_swapped : matrix := Mat 2 2 [[Real 1; Real 2]; [Real 1; Real 1]].
Definition ex_y_swapped : matrix := Mat 2 1 [[Real 2]; [Real 1]].

(* ================================================================== *)
(** ** The arithmetic of normalize in binary64

    The statements of normalize once more, on arrays given by their rows
    and with the float64 operations of IEEE 754 (round to nearest even):
    the numbers are those NumPy computes, roundings and special values
    included.  np.mean adds the entries of a column, row after row, and
    divides by the number of rows; np.std takes the square root of the
    mean of the squared deviations from that mean; the last statement
    subtracts and divides entry by entry, the 1-D arrays mu and sigma
    being applied to every row. *)

Module Binary64.

Import Floats.
#[local] Set Warnings "-inexact-float".

(** X[i][j] and v[j] *)
Definition get (X : list (list float)) (i j : nat) : float :=
  nth j (nth i X []) 0%float.

Definition vget (v : list float) (j : nat) : float := nth j v 0%float.

(** X[:, j] *)
Definition column (X : list (list float)) (j : nat) : list float :=
  map (fun r => nth j r 0%float) X.

(** The number of rows, as a float. *)
Definition count (l : list float) : float :=
  of_uint63 (Uint63.of_Z (Z.of_nat (length l))).

Definition sum (l : list float) : float := fold_left add l 0%float.

Definition mean (l : list float) : float := (sum l / count l)%float.

Definition std (l : list float) : float :=
  sqrt (mean (map (fun x => ((x - mean l) * (x - mean l))%float) l)).

(** np.mean(X, axis=0) and np.std(X, axis=0) *)
Definition means (X : list (list float)) : list float :=
  map (fun j => mean (column X j)) (seq 0 (length (nth 0 X []))).

Definition stds (X : list (list float)) : list float :=
  map (fun j => std (column X j)) (seq 0 (length (nth 0 X []))).

(** (x - mu) / sigma for one entry, and (X - mu) / sigma. *)
Definition scale (x mu sigma : float) : float := ((x - mu) / sigma)%float.

Definition center_scale (mu sigma : list float) (X : list (list float))
  : list (list float) :=
  map (fun r => imap (fun j x => scale x (vget mu j) (vget sigma j)) r) X.

Definition normalize (X : list (list float)) : list (list float) :=
  let mu := means X in
  let sigma := stds X in
  center_scale mu sigma X.

(** Three examples with two features; the first feature is 0.1 for all. *)
Definition ex_constant : list (list float) :=
  [[0.1; 1]; [0.1; 2]; [0.1; 3]]%float.

Definition ex_tenths : list float := [0.1; 0.1; 0.1]%float.

Definition ex_minus_ones : list float := [-1; -1; -1]%float.

(** [ex_features] in binary64: its constant column is 1, and the mean of
    that column is computed exactly. *)
Definition ex_features64 : list (list float) := [[1; 2]; [1; 4]]%float.

End Binary64.
(* ================================================================== *)
(** ** Facts about numbers and arrays *)

Lemma Rsign_0 : Rsign 0 = Eq.
Proof.
  unfold Rsign.
  destruct (total_order_T 0 0) as [[Hlt | Heq] | Hgt]; trivial; lra.
Qed.

Lemma Rsign_Eq (r : R) : Rsign r = Eq -> r = 0.
Proof.
  unfold Rsign.
  destruct (total_order_T r 0) as [[Hlt | Heq] | Hgt]; congruence.
Qed.

Lemma Rsign_nonzero (r : R) : r <> 0 -> Rsign r <> Eq.
Proof. intros H E. apply H, Rsign_Eq, E. Qed.

Lemma fmul_comm (x y : npfloat) : fmul x y = fmul y x.
Proof.
  destruct x, y; simpl; trivial. f_equal. apply Rmult_comm.
Qed.

Lemma fdiv_Real (a b : R) : b <> 0 -> fdiv (Real a) (Real b) = Real (a / b).
Proof.
  intros H. simpl. pose proof (Rsign_nonzero b H).
  destruct (Rsign b); congruence.
Qed.

(** Dividing by zero gives a value that is not finite, whatever the
    dividend. *)
Lemma fdiv_zero_not_finite (x : npfloat) : ~ is_finite (fdiv x (Real 0)).
Proof.
  destruct x; simpl; rewrite ?Rsign_0; auto.
  destruct (Rsign r); simpl; auto.
Qed.

Lemma map_seq_ext {A} (f g : nat -> A) (s n : nat) :
  (forall i, (s <= i < s + n)%nat -> f i = g i) ->
  map f (seq s n) = map g (seq s n).
Proof.
  intros H. apply map_ext_in. intros i Hi. apply in_seq in Hi. auto.
Qed.

Lemma nth_map_seq {A} (f : nat -> A) (n i : nat) (d : A) :
  (i < n)%nat -> nth i (map f (seq 0 n)) d = f i.
Proof.
  intros H. rewrite (nth_indep _ d (f 0%nat)) by (rewrite length_map, length_seq; lia).
  rewrite (map_nth f (seq 0 n) 0%nat i), seq_nth by lia. reflexivity.
Qed.

Lemma get_tab (r c : nat) (f : nat -> nat -> npfloat) (i j : nat) :
  (i < r)%nat -> (j < c)%nat -> get (tab r c f) i j = f i j.
Proof.
  intros Hi Hj. unfold get, tab. simpl.
  rewrite (nth_map_seq (fun i => map (fun j => f i j) (seq 0 c))) by lia.
  apply nth_map_seq. lia.
Qed.

Lemma nrows_tab (r c : nat) (f : nat -> nat -> npfloat) :
  nrows (tab r c f) = r.
Proof. reflexivity. Qed.

Lemma ncols_tab (r c : nat) (f : nat -> nat -> npfloat) :
  ncols (tab r c f) = c.
Proof. reflexivity. Qed.

(** Shapes of tabulated arrays, then the entries read in range. *)
Ltac tab_simpl :=
  repeat (progress (rewrite ?nrows_tab, ?ncols_tab);
          try rewrite !get_tab by lia);
  try rewrite !get_tab by lia.

Lemma tab_ext (r c : nat) (f g : nat -> nat -> npfloat) :
  (forall i j, (i < r)%nat -> (j < c)%nat -> f i j = g i j) ->
  tab r c f = tab r c g.
Proof.
  intros H. unfold tab. f_equal.
  apply map_seq_ext. intros i Hi. apply map_seq_ext. intros j Hj.
  apply H; lia.
Qed.

Lemma vget_vtab (n : nat) (f : nat -> npfloat) (j : nat) :
  (j < n)%nat -> vget (vtab n f) j = f j.
Proof. intros H. apply nth_map_seq, H. Qed.

Lemma length_vtab (n : nat) (f : nat -> npfloat) : length (vtab n f) = n.
Proof. unfold vtab. rewrite length_map. apply length_seq. Qed.

Lemma fold_fadd_ext (f g : nat -> npfloat) (l : list nat) (a : npfloat) :
  (forall i, In i l -> f i = g i) ->
  fold_left (fun acc i => fadd acc (f i)) l a =
  fold_left (fun acc i => fadd acc (g i)) l a.
Proof.
  revert a. induction l as [| i l IH]; intros a H; simpl; trivial.
  rewrite (H i) by (left; trivial). apply IH. intros k Hk. apply H. right. trivial.
Qed.

Lemma fsum_ext (n : nat) (f g : nat -> npfloat) :
  (forall i, (i < n)%nat -> f i = g i) -> fsum n f = fsum n g.
Proof.
  intros H. apply fold_fadd_ext. intros i Hi. apply in_seq in Hi. apply H. lia.
Qed.

Lemma get_transpose (A : matrix) (i j : nat) :
  (i < ncols A)%nat -> (j < nrows A)%nat -> get (transpose A) i j = get A j i.
Proof. intros. unfold transpose. rewrite get_tab; trivial. Qed.

(** The transposed product of the transposed residual by X is the product
    of the transpose of X by the residual. *)
Lemma transpose_mmul_transpose (r X : matrix) :
  nrows r = nrows X ->
  transpose (mmul (transpose r) X) = mmul (transpose X) r.
Proof.
  intros Hr. unfold transpose at 1. unfold mmul. simpl.
  apply tab_ext. intros i j Hi Hj.
  rewrite get_tab by trivial. rewrite Hr.
  apply fsum_ext. intros k Hk.
  rewrite !get_transpose by (trivial; lia).
  apply fmul_comm.
Qed.

Lemma bdim_same (a : nat) : bdim a a = Some a.
Proof. unfold bdim. rewrite Nat.eqb_refl. reflexivity. Qed.

Lemma bidx_lt (d i : nat) : (i < d)%nat -> bidx d i = i.
Proof.
  intros H. unfold bidx. destruct (Nat.eqb_spec d 1); trivial. lia.
Qed.

(** Operands of one shape: broadcasting is the entrywise operation. *)
Lemma broadcast_same (f : npfloat -> npfloat -> npfloat) (A B : matrix) :
  nrows A = nrows B -> ncols A = ncols B ->
  broadcast f A B = Ok (mzip f A B).
Proof.
  intros Hr Hc. unfold broadcast, mzip. rewrite <- Hr, <- Hc, !bdim_same.
  f_equal. apply tab_ext. intros i j Hi Hj. rewrite !bidx_lt; trivial.
Qed.

(** A 2-D array against a 1-D array as long as its rows: the 1-D array is
    applied to every row. *)
Lemma broadcast_row (f : npfloat -> npfloat -> npfloat) (A : matrix)
    (v : vector) :
  length v = ncols A ->
  broadcast f A (as_row v) =
  Ok (tab (nrows A) (ncols A) (fun i j => f (get A i j) (vget v j))).
Proof.
  intros Hv. unfold broadcast. simpl. rewrite Hv, bdim_same.
  assert (Hb : bdim (nrows A) 1 = Some (nrows A)).
  { unfold bdim. destruct (Nat.eqb_spec (nrows A) 1) as [-> | ]; trivial. }
  rewrite Hb. f_equal. apply tab_ext. intros i j Hi Hj.
  rewrite !bidx_lt by trivial. reflexivity.
Qed.

(* ================================================================== *)
(** ** Facts about the store and the primitive operations *)

Lemma runs_bind {A B} (c : M A) (k : A -> M B) w a w1 b w2 :
  runs c w a w1 -> runs (k a) w1 b w2 -> runs (x <- c ;; k x) w b w2.
Proof. unfold runs, bind. intros -> H. exact H. Qed.

Lemma raises_bind {A B} (c : M A) (k : A -> M B) w a w1 e w2 :
  runs c w a w1 -> raises (k a) w1 e w2 -> raises (x <- c ;; k x) w e w2.
Proof. unfold runs, raises, bind. intros -> H. exact H. Qed.

Lemma runs_ret {A} (a : A) w : runs (ret a) w a w.
Proof. reflexivity. Qed.

Lemma runs_lift {A} (r : res A) (a : A) w : r = Ok a -> runs (lift r) w a w.
Proof. intros ->. reflexivity. Qed.

Lemma runs_read (a : array) (A : matrix) w :
  contents a w = Some A -> runs (read a) w A w.
Proof. unfold runs, read. intros ->. reflexivity. Qed.

Lemma runs_alloc (A : matrix) w : runs (alloc A) w (fresh w) (push A w).
Proof. reflexivity. Qed.

Lemma allocates_refl w : allocates w w.
Proof. split; reflexivity. Qed.

Lemma allocates_trans w1 w2 w3 :
  allocates w1 w2 -> allocates w2 w3 -> allocates w1 w3.
Proof.
  intros [H1 F1] [H2 F2]. split; [etrans; eassumption | congruence].
Qed.

Lemma allocates_push (A : matrix) w : allocates w (push A w).
Proof. split; [apply prefix_app_r; reflexivity | reflexivity]. Qed.

Lemma contents_allocates (a : array) (A : matrix) w w' :
  allocates w w' -> contents a w = Some A -> contents a w' = Some A.
Proof.
  intros [H _]. unfold contents.
  destruct (heap w !! buf a) as [B |] eqn:E; [| discriminate].
  rewrite (prefix_lookup_Some _ _ _ _ E H). trivial.
Qed.

Lemma contents_push (a : array) (A B : matrix) w :
  contents a w = Some A -> contents a (push B w) = Some A.
Proof. apply contents_allocates, allocates_push. Qed.

Lemma contents_fresh (A : matrix) w : contents (fresh w) (push A w) = Some A.
Proof.
  unfold contents, fresh, push. simpl.
  rewrite lookup_app_r, Nat.sub_diag by lia. reflexivity.
Qed.

Lemma contents_lt (a : array) (A : matrix) w :
  contents a w = Some A -> (buf a < length (heap w))%nat.
Proof.
  unfold contents. destruct (heap w !! buf a) eqn:E; [| discriminate].
  intros _. eapply lookup_lt_Some, E.
Qed.

(** The view made by np.transpose of an object that is not itself a view. *)
Lemma contents_view (a : array) (A : matrix) w :
  transposed a = false -> contents a w = Some A ->
  contents (Array (buf a) true) w = Some (transpose A).
Proof.
  unfold contents. simpl. intros ->.
  destruct (heap w !! buf a); [| discriminate]. congruence.
Qed.

Lemma runs_np_matmul (a b : array) (A B : matrix) w :
  contents a w = Some A -> contents b w = Some B -> ncols A = nrows B ->
  runs (np_matmul a b) w (fresh w) (push (mmul A B) w).
Proof.
  intros Ha Hb Hs. unfold np_matmul.
  eapply runs_bind; [apply runs_read, Ha |].
  eapply runs_bind; [apply runs_read, Hb |].
  eapply runs_bind; [| apply runs_alloc].
  apply runs_lift. unfold matmul. rewrite Hs, Nat.eqb_refl. reflexivity.
Qed.

Lemma runs_np_subtract (a b : array) (A B : matrix) w :
  contents a w = Some A -> contents b w = Some B ->
  nrows A = nrows B -> ncols A = ncols B ->
  runs (np_subtract a b) w (fresh w) (push (msub A B) w).
Proof.
  intros Ha Hb Hr Hc. unfold np_subtract.
  eapply runs_bind; [apply runs_read, Ha |].
  eapply runs_bind; [apply runs_read, Hb |].
  eapply runs_bind; [| apply runs_alloc].
  apply runs_lift, broadcast_same; trivial.
Qed.

Lemma runs_np_transpose (a : array) (A : matrix) w :
  contents a w = Some A ->
  runs (np_transpose a) w (Array (buf a) (negb (transposed a))) w.
Proof.
  intros Ha. unfold np_transpose.
  eapply runs_bind; [apply runs_read, Ha | apply runs_ret].
Qed.

Lemma runs_np_square (a : array) (A : matrix) w :
  contents a w = Some A ->
  runs (np_square a) w (fresh w) (push (mmap fsquare A) w).
Proof.
  intros Ha. unfold np_square.
  eapply runs_bind; [apply runs_read, Ha | apply runs_alloc].
Qed.

Lemma runs_float_mul (c : npfloat) (a : array) (A : matrix) w :
  contents a w = Some A ->
  runs (float_mul c a) w (fresh w) (push (mscale c A) w).
Proof.
  intros Ha. unfold float_mul.
  eapply runs_bind; [apply runs_read, Ha | apply runs_alloc].
Qed.

Lemma runs_py_sum (a : array) (A : matrix) w :
  contents a w = Some A -> runs (py_sum a) w (sum_rows A) w.
Proof.
  intros Ha. unfold py_sum.
  eapply runs_bind; [apply runs_read, Ha | apply runs_ret].
Qed.

Lemma py_truediv_ok (x : npfloat) (d : Z) :
  d <> 0%Z -> py_truediv x d = Ok (fdiv x (Real (IZR d))).
Proof.
  intros H. unfold py_truediv. destruct (Z.eqb_spec d 0); congruence.
Qed.

Create HintDb store.
#[local] Hint Resolve contents_push contents_fresh allocates_refl
  allocates_push : store.

(** The update of theta, on operands of conforming shapes and for m <> 0:
    five arrays are allocated, the last one is the new theta. *)
Lemma runs_update_theta (X y theta : array) (AX Ay Ath : matrix)
    (alpha : npfloat) (m : Z) w :
  contents X w = Some AX -> contents y w = Some Ay ->
  contents theta w = Some Ath ->
  ncols AX = nrows Ath -> nrows Ay = nrows AX -> ncols Ay = ncols Ath ->
  m <> 0%Z ->
  exists theta' w',
    runs (update_theta X y theta alpha m) w theta' w' /\
    contents theta' w' =
      Some (update_value AX Ay Ath (fdiv alpha (Real (IZR m)))) /\
    allocates w w' /\
    (length (heap w) <= buf theta')%nat.
Proof.
  intros HX Hy Hth S1 S2 S3 Hm.
  set (T1 := mmul AX Ath). set (T2 := msub T1 Ay).
  set (T3 := mmul (transpose T2) AX).
  set (c := fdiv alpha (Real (IZR m))).
  set (T4 := mscale c (transpose T3)).
  set (w1 := push T1 w). set (w2 := push T2 w1). set (w3 := push T3 w2).
  set (w4 := push T4 w3).
  exists (fresh w4), (push (msub Ath T4) w4). split; [| split; [| split]].
  - unfold update_theta.
    eapply runs_bind; [apply runs_np_matmul; eassumption |].
    eapply runs_bind.
    { apply (runs_np_subtract _ _ T1 Ay); simpl; auto with store. }
    eapply runs_bind.
    { apply (runs_np_transpose _ T2). apply contents_fresh. }
    eapply runs_bind.
    { apply (runs_np_matmul _ _ (transpose T2) AX).
      - apply (contents_view (fresh w1)); [reflexivity | apply contents_fresh].
      - unfold w2, w1. auto with store.
      - simpl. congruence. }
    eapply runs_bind.
    { apply (runs_np_transpose _ T3). apply contents_fresh. }
    eapply runs_bind; [apply runs_lift, py_truediv_ok, Hm |].
    eapply runs_bind.
    { apply (runs_float_mul _ _ (transpose T3)).
      apply (contents_view (fresh w2)); [reflexivity | apply contents_fresh]. }
    apply (runs_np_subtract _ _ Ath T4).
    + unfold w4, w3, w2, w1. auto 10 with store.
    + apply contents_fresh.
    + simpl. congruence.
    + simpl. congruence.
  - apply contents_fresh.
  - unfold w4, w3, w2, w1.
    repeat (eapply allocates_trans; [| apply allocates_push]).
    apply allocates_refl.
  - simpl. rewrite !length_app. lia.
Qed.

Lemma update_value_direct (X y theta : matrix) (c : npfloat) :
  nrows y = nrows X -> update_value X y theta c = direct_update X y theta c.
Proof.
  intros H. unfold update_value, direct_update.
  rewrite transpose_mmul_transpose; trivial.
Qed.

Lemma fold_py_add_col (g : nat -> npfloat) (l : list nat) (a : npfloat) :
  fold_left (fun acc i => py_add acc [g i]) l (PyArr [a]) =
  PyArr [fold_left (fun acc i => fadd acc (g i)) l a].
Proof.
  revert a. induction l as [| i l IH]; intros a; simpl; trivial.
  apply IH.
Qed.

(** The builtin sum over an array of one column. *)
Lemma sum_rows_col (A : matrix) :
  ncols A = 1%nat ->
  sum_rows A =
  match nrows A with
  | O => PyNum (Real 0)
  | S _ => PyArr [fsum (nrows A) (fun i => get A i 0)]
  end.
Proof.
  intros Hc. unfold sum_rows, row, fsum. rewrite Hc. simpl vtab.
  destruct (nrows A) as [| r]; trivial.
  simpl. apply fold_py_add_col.
Qed.

Lemma runs_cost_function (X y theta : array) (AX Ay Ath : matrix) (m : Z) w :
  contents X w = Some AX -> contents y w = Some Ay ->
  contents theta w = Some Ath ->
  ncols AX = nrows Ath -> nrows Ay = nrows AX -> ncols Ay = ncols Ath ->
  m <> 0%Z ->
  exists w',
    runs (cost_function X y theta m) w (cost_value AX Ay Ath m) w' /\
    allocates w w'.
Proof.
  intros HX Hy Hth S1 S2 S3 Hm.
  set (T1 := mmul AX Ath). set (T2 := msub T1 Ay).
  set (T3 := mmap fsquare T2).
  exists (push T3 (push T2 (push T1 w))). split.
  - unfold cost_function.
    eapply runs_bind; [apply runs_np_matmul; eassumption |].
    eapply runs_bind.
    { apply (runs_np_subtract _ _ T1 Ay); simpl; auto with store. }
    eapply runs_bind.
    { apply (runs_np_square _ T2), contents_fresh. }
    eapply runs_bind.
    { apply runs_lift, py_truediv_ok. lia. }
    eapply runs_bind.
    { apply (runs_py_sum _ T3), contents_fresh. }
    apply runs_ret.
  - repeat (eapply allocates_trans; [| apply allocates_push]).
    apply allocates_refl.
Qed.

(** The cost of a one-column theta is a scalar. *)
Lemma cost_value_scalar (X y theta : matrix) (m : Z) :
  ncols theta = 1%nat ->
  as_scalar (cost_value X y theta m) = Ok (cost_scalar X y theta m).
Proof.
  intros Hc. unfold cost_scalar, cost_value.
  rewrite sum_rows_col by (simpl; trivial).
  simpl nrows. destruct (nrows X); reflexivity.
Qed.

Lemma insert_map_seq {A} (f : nat -> A) (y : A) (s n i : nat) :
  (i < n)%nat ->
  <[i := y]> (map f (seq s n)) =
  map (fun k => if (k =? s + i)%nat then y else f k) (seq s n).
Proof.
  revert s i. induction n as [| n IH]; intros s i Hi; [lia |].
  destruct i as [| i]; simpl.
  - rewrite Nat.add_0_r, Nat.eqb_refl. f_equal.
    apply map_seq_ext. intros k Hk.
    destruct (Nat.eqb_spec k s); trivial. lia.
  - destruct (Nat.eqb_spec s (s + S i)); [lia |]. f_equal.
    rewrite IH by lia. apply map_seq_ext. intros k Hk.
    replace (S s + i)%nat with (s + S i)%nat by lia. trivial.
Qed.

(** An item assignment into a tabulated array. *)
Lemma mset_tab (r c : nat) (f : nat -> nat -> npfloat) (i j : nat)
    (x : npfloat) :
  (i < r)%nat -> (j < c)%nat ->
  mset (tab r c f) i j x =
  tab r c (fun i' j' => if (i' =? i)%nat && (j' =? j)%nat then x else f i' j').
Proof.
  intros Hi Hj. unfold mset, tab. simpl. f_equal.
  rewrite (nth_map_seq (fun i => map (fun j => f i j) (seq 0 c))) by trivial.
  rewrite insert_map_seq by trivial. simpl.
  apply map_seq_ext. intros i' Hi'.
  destruct (Nat.eqb_spec i' i) as [-> | Hne]; simpl; trivial.
  apply insert_map_seq. trivial.
Qed.

(** One more cost recorded. *)
Lemma mset_history (X y theta : matrix) (c : npfloat) (m : Z) (n k : nat) :
  (k < n)%nat ->
  mset (history X y theta c m n k) k 0
       (cost_scalar X y (theta_after X y theta c (S k)) m) =
  history X y theta c m n (S k).
Proof.
  intros Hk. unfold history. rewrite mset_tab by lia.
  apply tab_ext. intros i j Hi Hj.
  replace j with 0%nat by lia. simpl andb. rewrite andb_true_r.
  destruct (Nat.eqb_spec i k) as [-> | Hne].
  - destruct (Nat.ltb_spec k (S k)); [trivial | lia].
  - destruct (Nat.ltb_spec i k), (Nat.ltb_spec i (S k)); trivial; lia.
Qed.

Lemma runs_setitem (a : array) (A : matrix) (i j : nat) (v : pyval)
    (x : npfloat) w :
  contents a w = Some A -> transposed a = false ->
  (i < nrows A)%nat -> (j < ncols A)%nat -> as_scalar v = Ok x ->
  runs (setitem a i j v) w tt
       (World (<[buf a := mset A i j x]> (heap w)) (figures w)).
Proof.
  intros Ha Ht Hi Hj Hv. unfold setitem.
  eapply runs_bind; [apply runs_read, Ha |].
  destruct (Nat.ltb_spec i (nrows A)); [| lia].
  destruct (Nat.ltb_spec j (ncols A)); [| lia]. simpl.
  eapply runs_bind; [apply runs_lift, Hv |].
  unfold runs, write. unfold contents in Ha. rewrite Ht in *.
  destruct (heap w !! buf a) as [B |]; [| discriminate].
  congruence.
Qed.

(** After an item assignment: the object written holds the new array, the
    objects on other buffers hold what they held. *)
Lemma contents_written (a : array) (B : matrix) w :
  transposed a = false -> (buf a < length (heap w))%nat ->
  contents a (World (<[buf a := B]> (heap w)) (figures w)) = Some B.
Proof.
  intros Ht Hl. unfold contents. simpl.
  rewrite list_lookup_insert_eq by trivial. rewrite Ht. trivial.
Qed.

Lemma contents_not_written (a b : array) (B : matrix) w :
  buf b <> buf a ->
  contents b (World (<[buf a := B]> (heap w)) (figures w)) = contents b w.
Proof.
  intros Hne. unfold contents. simpl.
  rewrite list_lookup_insert_ne by congruence. trivial.
Qed.

Lemma shape_theta_after (X y theta : matrix) (c : npfloat) (k : nat) :
  nrows (theta_after X y theta c k) = nrows theta /\
  ncols (theta_after X y theta c k) = ncols theta.
Proof.
  induction k as [| k [IHr IHc]]; simpl; auto.
Qed.

Lemma prefix_insert_ge {A} (h0 h : list A) (i : nat) (x : A) :
  h0 `prefix_of` h -> (length h0 <= i)%nat -> h0 `prefix_of` <[i := x]> h.
Proof.
  intros [l ->] Hi.
  replace i with (length h0 + (i - length h0))%nat by lia.
  rewrite insert_app_r. apply prefix_app_r. reflexivity.
Qed.

Lemma contents_prefix (a : array) (A : matrix) w0 w :
  heap w0 `prefix_of` heap w -> contents a w0 = Some A ->
  contents a w = Some A.
Proof.
  intros H. unfold contents.
  destruct (heap w0 !! buf a) as [B |] eqn:E; [| discriminate].
  rewrite (prefix_lookup_Some _ _ _ _ E H). trivial.
Qed.

Section Descent.

Variables (X y : array) (AX Ay Ath : matrix) (alpha : npfloat) (m : Z).
Variable w0 : world.

Hypothesis HX : contents X w0 = Some AX.
Hypothesis Hy : contents y w0 = Some Ay.
Hypothesis S1 : ncols AX = nrows Ath.
Hypothesis S2 : nrows Ay = nrows AX.
Hypothesis S3 : ncols Ay = 1%nat.
Hypothesis S4 : ncols Ath = 1%nat.
Hypothesis Hm : m <> 0%Z.

Let c : npfloat := fdiv alpha (Real (IZR m)).

(** One iteration keeps the state of the loop. *)
Lemma gd_body_inv (n k : nat) (th : array) (w : world) :
  (k < n)%nat ->
  gd_inv w0 AX Ay Ath c m n k th w ->
  exists th' w',
    runs (gd_body X y alpha m (fresh w0) k th) w th' w' /\
    gd_inv w0 AX Ay Ath c m n (S k) th' w'.
Proof.
  intros Hk (Hpre & Hfig & Hj & Hth & Hne).
  pose proof (shape_theta_after AX Ay Ath c k) as [Hr Hc].
  pose proof (contents_prefix _ _ _ _ Hpre HX) as HXw.
  pose proof (contents_prefix _ _ _ _ Hpre Hy) as Hyw.
  destruct (runs_update_theta X y th AX Ay _ alpha m w HXw Hyw Hth)
    as (th1 & wa & Run1 & Hth1 & Hal1 & Hfr1); try congruence.
  fold c in Hth1.
  change (update_value AX Ay (theta_after AX Ay Ath c k) c)
    with (theta_after AX Ay Ath c (S k)) in Hth1.
  pose proof (shape_theta_after AX Ay Ath c (S k)) as [Hr' Hc'].
  destruct (runs_cost_function X y th1 AX Ay _ m wa
              (contents_allocates _ _ _ _ Hal1 HXw)
              (contents_allocates _ _ _ _ Hal1 Hyw) Hth1)
    as (wb & Run2 & Hal2); try congruence.
  pose proof (allocates_trans _ _ _ Hal1 Hal2) as Hal.
  pose proof (contents_allocates _ _ _ _ Hal Hj) as Hjb.
  pose proof (contents_lt _ _ _ Hj) as Hjlt. simpl in Hjlt.
  eexists th1, _. split.
  - unfold gd_body.
    eapply runs_bind; [exact Run1 |].
    eapply runs_bind; [exact Run2 |].
    eapply runs_bind; [| apply runs_ret].
    eapply runs_setitem; [exact Hjb | reflexivity | simpl; lia | simpl; lia |].
    apply cost_value_scalar. congruence.
  - rewrite mset_history by trivial.
    destruct Hal as [Hp Hf]. split; [| split; [| split; [| split]]]; simpl.
    + apply prefix_insert_ge; [| lia]. etrans; eassumption.
    + congruence.
    + apply (contents_written (fresh w0)); [reflexivity |].
      simpl. apply prefix_length in Hp. lia.
    + rewrite (contents_not_written (fresh w0)) by (simpl; lia).
      apply (contents_allocates _ _ _ _ Hal2 Hth1).
    + lia.
Qed.

(** The iterations k, k+1, ..., n-1. *)
Lemma gd_loop_inv (n d k : nat) (th : array) (w : world) :
  (k + d = n)%nat ->
  gd_inv w0 AX Ay Ath c m n k th w ->
  exists th' w',
    runs (for_each (seq k d) (gd_body X y alpha m (fresh w0)) th) w th' w' /\
    gd_inv w0 AX Ay Ath c m n n th' w'.
Proof.
  revert k th w. induction d as [| d IH]; intros k th w Hkd Hinv.
  - exists th, w. split; [apply runs_ret |].
    replace k with n in Hinv by lia. exact Hinv.
  - destruct (gd_body_inv n k th w) as (th1 & w1 & Run & Hinv1);
      [lia | exact Hinv |].
    destruct (IH (S k) th1 w1) as (th' & w' & Run' & Hinv');
      [lia | exact Hinv1 |].
    exists th', w'. split; [| exact Hinv'].
    simpl. eapply runs_bind; eassumption.
Qed.

(** A run of gradient_descent on operands of conforming shapes, with
    m <> 0 and num_iters >= 0. *)
Lemma runs_gradient_descent (theta : array) (num_iters : Z) :
  contents theta w0 = Some Ath ->
  (0 <= num_iters)%Z ->
  let n := Z.to_nat num_iters in
  exists th' w',
    runs (gradient_descent X y theta alpha num_iters m) w0 th' w' /\
    contents th' w' = Some (theta_after AX Ay Ath c n) /\
    heap w0 `prefix_of` heap w' /\
    contents (fresh w0) w' = Some (history AX Ay Ath c m n n) /\
    figures w' = figures w0 ++ [history AX Ay Ath c m n n].
Proof.
  intros Hth Hn n.
  assert (Hinv0 : gd_inv w0 AX Ay Ath c m n 0 theta
                    (push (tab n 1 (fun _ _ => Real 0)) w0)).
  { split; [| split; [| split; [| split]]].
    - apply prefix_app_r. reflexivity.
    - reflexivity.
    - apply contents_fresh.
    - apply contents_push, Hth.
    - apply contents_lt in Hth. lia. }
  destruct (gd_loop_inv n n 0 theta _ eq_refl Hinv0)
    as (th' & w' & Run & Hpre & Hfig & Hj & Hth' & Hne).
  exists th', (World (heap w') (figures w' ++ [history AX Ay Ath c m n n])).
  split; [| split; [| split; [| split]]].
  - unfold gradient_descent.
    eapply runs_bind.
    { unfold np_zeros. destruct (Z.ltb_spec num_iters 0); [lia |].
      apply runs_alloc. }
    eapply runs_bind; [exact Run |].
    eapply runs_bind; [| apply runs_ret].
    unfold runs, plot_cost. rewrite Hj. reflexivity.
  - exact Hth'.
  - exact Hpre.
  - exact Hj.
  - simpl. congruence.
Qed.

End Descent.

Lemma raises_bind_l {A B} (c : M A) (k : A -> M B) w e w' :
  raises c w e w' -> raises (x <- c ;; k x) w e w'.
Proof. unfold raises, bind. intros ->. reflexivity. Qed.

(** With m = 0 the update computes X theta - y and its product by X, then
    alpha / m raises. *)
Lemma raises_update_theta_zero (X y theta : array) (AX Ay Ath : matrix)
    (alpha : npfloat) w :
  contents X w = Some AX -> contents y w = Some Ay ->
  contents theta w = Some Ath ->
  ncols AX = nrows Ath -> nrows Ay = nrows AX -> ncols Ay = ncols Ath ->
  raises (update_theta X y theta alpha 0) w ZeroDivisionError
         (push (mmul (transpose (msub (mmul AX Ath) Ay)) AX)
            (push (msub (mmul AX Ath) Ay) (push (mmul AX Ath) w))).
Proof.
  intros HX Hy Hth S1 S2 S3.
  set (T1 := mmul AX Ath). set (T2 := msub T1 Ay).
  set (w1 := push T1 w). set (w2 := push T2 w1).
  unfold update_theta.
  eapply raises_bind; [apply runs_np_matmul; eassumption |].
  eapply raises_bind.
  { apply (runs_np_subtract _ _ T1 Ay); simpl; auto with store. }
  eapply raises_bind.
  { apply (runs_np_transpose _ T2). apply contents_fresh. }
  eapply raises_bind.
  { apply (runs_np_matmul _ _ (transpose T2) AX).
    - apply (contents_view (fresh w1)); [reflexivity | apply contents_fresh].
    - unfold w2, w1. auto with store.
    - simpl. congruence. }
  eapply raises_bind.
  { apply (runs_np_transpose _ (mmul (transpose T2) AX)). apply contents_fresh. }
  apply raises_bind_l. reflexivity.
Qed.

(** No iteration: theta is returned as received, the empty cost array is
    the only allocation and is what plot_cost shows. *)
Lemma runs_gradient_descent_0 (X y theta : array) (alpha : npfloat) (m : Z) w :
  runs (gradient_descent X y theta alpha 0 m) w theta
       (World (heap w ++ [Mat 0 1 []]) (figures w ++ [Mat 0 1 []])).
Proof.
  unfold gradient_descent.
  eapply runs_bind; [apply runs_alloc |].
  eapply runs_bind; [apply runs_ret |].
  eapply runs_bind; [| apply runs_ret].
  unfold runs, plot_cost. rewrite contents_fresh. reflexivity.
Qed.

(** Evaluation of the array operations on arrays given by their rows. *)
Ltac eval_arrays :=
  cbv [update_value direct_update cost_value cost_scalar history theta_after
       msub mzip mscale mmap transpose mmul tab get vget vtab fsum row
       sum_rows py_add py_mul as_scalar
       seq map nth fold_left nrows ncols rows length
       ex_X ex_y ex_theta fadd fsub fmul fsquare Nat.ltb Nat.leb].

(** On the small data set the gradient vanishes: an update step leaves the
    values of theta as they are, whatever the step size. *)
Lemma ex_fixed_point (a : R) :
  update_value ex_X ex_y ex_theta (Real a) = ex_theta.
Proof. eval_arrays. repeat f_equal; lra. Qed.

Lemma ex_theta_after (a : R) (k : nat) :
  theta_after ex_X ex_y ex_theta (Real a) k = ex_theta.
Proof.
  induction k as [| k IH]; simpl; [reflexivity |].
  rewrite IH. apply ex_fixed_point.
Qed.

(* ================================================================== *)
(** ** Facts about normalize and load_data *)

Lemma runs_np_mean0 (a : array) (A : matrix) w :
  contents a w = Some A ->
  runs (np_mean0 a) w (vtab (ncols A) (col_mean A)) w.
Proof.
  intros Ha. unfold np_mean0.
  eapply runs_bind; [apply runs_read, Ha | apply runs_ret].
Qed.

Lemma runs_np_std0 (a : array) (A : matrix) w :
  contents a w = Some A ->
  runs (np_std0 a) w (vtab (ncols A) (col_std A)) w.
Proof.
  intros Ha. unfold np_std0.
  eapply runs_bind; [apply runs_read, Ha | apply runs_ret].
Qed.

(** normalize never raises: two arrays are allocated, the second one is
    returned. *)
Lemma runs_normalize (X : array) (A : matrix) w :
  contents X w = Some A ->
  exists r w',
    runs (normalize X) w r w' /\
    contents r w' = Some (normalize_value A) /\
    allocates w w'.
Proof.
  intros HX.
  set (mu := vtab (ncols A) (col_mean A)).
  set (sigma := vtab (ncols A) (col_std A)).
  set (T := tab (nrows A) (ncols A) (fun i j => fsub (get A i j) (vget mu j))).
  set (w1 := push T w).
  exists (fresh w1), (push (normalize_value A) w1). split; [| split].
  - unfold normalize.
    eapply runs_bind; [apply runs_np_mean0, HX |].
    eapply runs_bind; [apply runs_np_std0, HX |].
    eapply runs_bind.
    { unfold np_subtract_vec.
      eapply runs_bind; [apply runs_read, HX |].
      eapply runs_bind; [| apply runs_alloc].
      apply runs_lift, broadcast_row, length_vtab. }
    unfold np_divide_vec.
    eapply runs_bind; [apply runs_read, contents_fresh |].
    replace (normalize_value A)
      with (tab (nrows T) (ncols T)
              (fun i j => fdiv (get T i j) (vget sigma j))).
    + eapply runs_bind; [| apply runs_alloc].
      apply runs_lift, broadcast_row. apply length_vtab.
    + unfold normalize_value, T. simpl nrows. simpl ncols.
      apply tab_ext. intros i j Hi Hj.
      rewrite get_tab by trivial. unfold mu, sigma.
      rewrite !vget_vtab by trivial. reflexivity.
  - apply contents_fresh.
  - eapply allocates_trans; apply allocates_push.
Qed.

Lemma fsum_S (n : nat) (f : nat -> npfloat) :
  fsum (S n) f = fadd (fsum n f) (f n).
Proof.
  unfold fsum. rewrite seq_S, fold_left_app. reflexivity.
Qed.

Lemma Rsum_S (n : nat) (f : nat -> R) : Rsum (S n) f = Rsum n f + f n.
Proof.
  unfold Rsum. rewrite seq_S, fold_left_app. reflexivity.
Qed.

Lemma Rsum_ext (n : nat) (f g : nat -> R) :
  (forall i, (i < n)%nat -> f i = g i) -> Rsum n f = Rsum n g.
Proof.
  induction n as [| n IH]; intros H; [reflexivity |].
  rewrite !Rsum_S, IH, (H n) by (intros; auto with arith). reflexivity.
Qed.

Lemma Rsum_div (n : nat) (f : nat -> R) (c : R) :
  Rsum n (fun i => f i / c) = Rsum n f / c.
Proof.
  induction n as [| n IH]; [unfold Rsum, Rdiv; simpl; ring |].
  rewrite !Rsum_S, IH. unfold Rdiv. ring.
Qed.

Lemma Rsum_minus (n : nat) (f : nat -> R) (c : R) :
  Rsum n (fun i => f i - c) = Rsum n f - INR n * c.
Proof.
  induction n as [| n IH]; [unfold Rsum; simpl; lra |].
  rewrite !Rsum_S, IH, S_INR. lra.
Qed.

Lemma Rsum_nonneg (n : nat) (f : nat -> R) :
  (forall i, 0 <= f i) -> 0 <= Rsum n f.
Proof.
  intros H. induction n as [| n IH]; [unfold Rsum; simpl; lra |].
  rewrite Rsum_S. specialize (H n). lra.
Qed.

(** A sum of finite numbers is their sum over R. *)
Lemma fsum_Real (n : nat) (f : nat -> npfloat) (g : nat -> R) :
  (forall i, (i < n)%nat -> f i = Real (g i)) -> fsum n f = Real (Rsum n g).
Proof.
  induction n as [| n IH]; intros H; [reflexivity |].
  rewrite fsum_S, Rsum_S, IH, (H n) by (intros; auto with arith).
  reflexivity.
Qed.

Lemma get_finite (A : matrix) (i j : nat) :
  finite_array A -> (i < nrows A)%nat -> (j < ncols A)%nat ->
  get A i j = Real (entry A i j).
Proof.
  intros H Hi Hj. specialize (H i j Hi Hj). unfold entry.
  destruct (get A i j); simpl in *; tauto.
Qed.

Lemma fsqrt_Real (v : R) : 0 <= v -> fsqrt (Real v) = Real (sqrt v).
Proof.
  intros H. simpl. unfold Rsign.
  destruct (total_order_T v 0) as [[Hlt | Heq] | Hgt]; trivial; lra.
Qed.

Lemma var_R_nonneg (A : matrix) (j : nat) : 0 <= var_R A j.
Proof.
  unfold var_R. destruct (nrows A) as [| r] eqn:E.
  - unfold Rsum, Rdiv. simpl. rewrite Rmult_0_l. lra.
  - apply Rmult_le_pos.
    + apply Rsum_nonneg. intros i. cbv beta. apply Rle_0_sqr.
    + left. apply Rinv_0_lt_compat, lt_0_INR. lia.
Qed.

Section Finite.

Variable A : matrix.
Hypothesis Hfin : finite_array A.
Hypothesis Hrows : (1 <= nrows A)%nat.

Lemma INR_rows : INR (nrows A) <> 0.
Proof. apply not_0_INR. lia. Qed.

Lemma col_mean_finite (j : nat) :
  (j < ncols A)%nat -> col_mean A j = Real (mean_R A j).
Proof.
  intros Hj. unfold col_mean, mean_R.
  rewrite (fsum_Real _ _ (fun i => entry A i j))
    by (intros; apply get_finite; trivial).
  apply fdiv_Real, INR_rows.
Qed.

Lemma col_var_finite (j : nat) :
  (j < ncols A)%nat -> col_var A j = Real (var_R A j).
Proof.
  intros Hj. unfold col_var, var_R.
  rewrite (fsum_Real _ _
             (fun i => (entry A i j - mean_R A j)
                       * (entry A i j - mean_R A j))).
  - apply fdiv_Real, INR_rows.
  - intros i Hi. rewrite get_finite, col_mean_finite by trivial.
    reflexivity.
Qed.

Lemma col_std_finite (j : nat) :
  (j < ncols A)%nat -> col_std A j = Real (std_R A j).
Proof.
  intros Hj. unfold col_std, std_R. rewrite col_var_finite by trivial.
  apply fsqrt_Real, var_R_nonneg.
Qed.

(** Where no standard deviation is 0, normalize computes the
    standardized array. *)
Lemma normalize_value_finite :
  (forall j, (j < ncols A)%nat -> std_R A j <> 0) ->
  normalize_value A = standardized A.
Proof.
  intros Hstd. unfold normalize_value, standardized.
  apply tab_ext. intros i j Hi Hj.
  rewrite get_finite, col_mean_finite, col_std_finite by trivial. simpl fsub.
  apply fdiv_Real, Hstd, Hj.
Qed.

End Finite.

Lemma finite_standardized (A : matrix) : finite_array (standardized A).
Proof.
  intros i j Hi Hj. unfold standardized in *. simpl in Hi, Hj.
  rewrite get_tab by trivial. exact I.
Qed.

Lemma entry_standardized (A : matrix) (i j : nat) :
  (i < nrows A)%nat -> (j < ncols A)%nat ->
  entry (standardized A) i j = (entry A i j - mean_R A j) / std_R A j.
Proof.
  intros Hi Hj. unfold entry at 1, standardized.
  rewrite get_tab by trivial. reflexivity.
Qed.

(** Over the reals a standardized column has mean 0 ... *)
Lemma mean_R_standardized (A : matrix) (j : nat) :
  (1 <= nrows A)%nat -> (j < ncols A)%nat ->
  mean_R (standardized A) j = 0.
Proof.
  intros Hr Hj. unfold mean_R at 1. simpl nrows.
  rewrite (Rsum_ext _ _ (fun i => (entry A i j - mean_R A j) / std_R A j))
    by (intros; apply entry_standardized; trivial).
  rewrite Rsum_div, Rsum_minus. unfold mean_R.
  assert (INR (nrows A) <> 0) by (apply not_0_INR; lia).
  replace (Rsum (nrows A) (fun i => entry A i j)
           - INR (nrows A) * (Rsum (nrows A) (fun i => entry A i j)
                              / INR (nrows A)))
    with 0 by (field; trivial).
  unfold Rdiv. ring.
Qed.

(** ... and, where the column has a standard deviation other than 0,
    variance 1. *)
Lemma var_R_standardized (A : matrix) (j : nat) :
  (1 <= nrows A)%nat -> (j < ncols A)%nat -> std_R A j <> 0 ->
  var_R (standardized A) j = 1.
Proof.
  intros Hr Hj Hs. unfold var_R at 1. simpl nrows.
  rewrite mean_R_standardized by trivial.
  set (d := fun i => (entry A i j - mean_R A j) * (entry A i j - mean_R A j)).
  rewrite (Rsum_ext _ _ (fun i => d i / (std_R A j * std_R A j))).
  - rewrite Rsum_div.
    assert (Hm : INR (nrows A) <> 0) by (apply not_0_INR; lia).
    assert (Hv : std_R A j * std_R A j = var_R A j)
      by (apply sqrt_sqrt, var_R_nonneg).
    assert (Hd : Rsum (nrows A) d = var_R A j * INR (nrows A))
      by (unfold var_R; fold d; field; trivial).
    rewrite Hd, Hv. field. split; trivial.
    intros E. apply Hs. unfold std_R. rewrite E. apply sqrt_0.
  - intros i Hi. rewrite entry_standardized by trivial.
    unfold d. field. trivial.
Qed.

Lemma std_R_standardized (A : matrix) (j : nat) :
  (1 <= nrows A)%nat -> (j < ncols A)%nat -> std_R A j <> 0 ->
  std_R (standardized A) j = 1.
Proof.
  intros Hr Hj Hs. unfold std_R at 1.
  rewrite var_R_standardized by trivial. apply sqrt_1.
Qed.

Lemma col_std_zero_variance (A : matrix) (j : nat) :
  col_var A j = Real 0 -> col_std A j = Real 0.
Proof.
  intros H. unfold col_std. rewrite H, fsqrt_Real by lra.
  f_equal. apply sqrt_0.
Qed.

Ltac eval_stats :=
  cbv [std_R var_R mean_R Rsum entry to_R get nth seq fold_left INR
       nrows ncols rows ex_features ex_frame ex_frame1 ex_varied tab map].

(** The first feature of [ex_features] is constant. *)
Lemma ex_features_variance : col_var ex_features 0 = Real 0.
Proof.
  rewrite col_var_finite.
  - f_equal. eval_stats. lra.
  - intros i j Hi Hj. simpl in Hi, Hj.
    destruct i as [| [| i]], j as [| [| j]]; simpl; trivial; lia.
  - simpl. lia.
  - simpl. lia.
Qed.

Lemma ex_varied_finite : finite_array ex_varied.
Proof.
  intros i j Hi Hj. simpl in Hi, Hj.
  destruct i as [| [| i]], j as [| [| j]]; simpl; trivial; lia.
Qed.

Lemma ex_varied_std (j : nat) : (j < 2)%nat -> std_R ex_varied j <> 0.
Proof.
  intros Hj. unfold std_R.
  replace (var_R ex_varied j) with 1.
  - rewrite sqrt_1. lra.
  - destruct j as [| [| j]]; [| | lia]; eval_stats; lra.
Qed.

(** A run of load_data on a frame with at least one column: the features
    are normalized when there are more than one of them, and left as they
    are otherwise; the bias column is put before them. *)
Lemma runs_load_data (data : matrix) w :
  (1 <= ncols data)%nat ->
  let m := nrows data in
  let k := (ncols data - 1)%nat in
  let F := tab m k (get data) in
  let G := if (1 <? k)%nat then normalize_value F else F in
  exists X y theta w',
    runs (load_data data) w (X, y, theta, Z.of_nat m, Z.of_nat (S k)) w' /\
    contents X w' = Some (with_bias G) /\
    contents y w' = Some (tab m 1 (fun i _ => get data i k)) /\
    contents theta w' = Some (tab (S k) 1 (fun _ _ => Real 0)) /\
    allocates w w'.
Proof.
  intros Hk m k F G.
  set (w1 := push F w).
  assert (HG : exists X2 w2,
             runs (S <- read (fresh w) ;;
                   if (1 <? ncols S)%nat then normalize (fresh w)
                   else ret (fresh w)) w1 X2 w2 /\
             contents X2 w2 = Some G /\ allocates w1 w2).
  { unfold G. destruct (1 <? k)%nat eqn:E.
    - destruct (runs_normalize (fresh w) F w1 (contents_fresh F w))
        as (X2 & w2 & Run & Hc & Hal).
      exists X2, w2. split; [| split; trivial].
      eapply runs_bind; [apply runs_read, contents_fresh |].
      simpl ncols. rewrite E. exact Run.
    - exists (fresh w), w1. split; [| split; auto with store].
      + eapply runs_bind; [apply runs_read, contents_fresh |].
        simpl ncols. rewrite E. apply runs_ret.
      + apply contents_fresh. }
  destruct HG as (X2 & w2 & Run2 & HcG & Hal2).
  assert (HrG : nrows G = m) by (unfold G; destruct (1 <? k)%nat; reflexivity).
  assert (HcolG : ncols G = k) by (unfold G; destruct (1 <? k)%nat; reflexivity).
  set (ones := tab m 1 (fun _ _ => Real 1)).
  set (w3 := push ones w2).
  set (H := with_bias G). set (w4 := push H w3).
  set (Y := tab m 1 (fun i _ => get data i k)). set (w5 := push Y w4).
  set (T := tab (S k) 1 (fun _ _ => Real 0)).
  exists (fresh w3), (fresh w4), (fresh w5), (push T w5).
  split; [| split; [| split; [| split]]].
  - unfold load_data.
    eapply runs_bind; [apply runs_alloc |].
    eapply runs_bind; [exact Run2 |].
    eapply runs_bind; [apply runs_alloc |].
    eapply runs_bind.
    { unfold np_append1.
      eapply runs_bind; [apply runs_read, contents_fresh |].
      eapply runs_bind; [apply runs_read, contents_push, HcG |].
      simpl nrows. rewrite HrG. fold m. rewrite Nat.eqb_refl.
      replace (tab m (ncols (tab m 1 (fun _ _ => Real 1)) + ncols G) _)
        with H; [apply runs_alloc |].
      unfold H, with_bias. rewrite HrG. simpl ncols.
      apply tab_ext. intros i j Hi Hj.
      destruct (Nat.ltb_spec j 1); trivial.
      rewrite get_tab by lia. trivial. }
    eapply runs_bind.
    { destruct (Nat.eqb_spec (ncols data) 0); [lia |]. apply runs_alloc. }
    eapply runs_bind.
    { apply (runs_read _ H). unfold w5. apply contents_push, contents_fresh. }
    eapply runs_bind.
    { unfold np_zeros. destruct (Z.ltb_spec (Z.of_nat (ncols H)) 0); [lia |].
      rewrite Nat2Z.id. unfold H. simpl ncols. rewrite HcolG. apply runs_alloc. }
    unfold H. simpl ncols. rewrite HcolG. apply runs_ret.
  - do 2 apply contents_push. apply contents_fresh.
  - apply contents_push, contents_fresh.
  - apply contents_fresh.
  - unfold w5, w4, w3.
    repeat (eapply allocates_trans; [| apply allocates_push]).
    eapply allocates_trans; [apply allocates_push | exact Hal2].
Qed.

(* ================================================================== *)
(** ** The buffers a run leaves alone *)

Lemma preserves_bind {A B} h0 (c : M A) (k : A -> M B) (Q : A -> Prop)
    (Q' : B -> Prop) :
  preserves h0 c Q -> (forall a, Q a -> preserves h0 (k a) Q') ->
  preserves h0 (x <- c ;; k x) Q'.
Proof.
  intros Hc Hk w Hw. destruct (Hc w Hw) as [H1 H2]. unfold bind.
  destruct (c w) as [[a | e] w1]; simpl in *.
  - apply (Hk a (H2 a eq_refl) w1 H1).
  - split; [exact H1 | discriminate].
Qed.

Lemma preserves_weaken {A} h0 (c : M A) (Q Q' : A -> Prop) :
  preserves h0 c Q -> (forall a, Q a -> Q' a) -> preserves h0 c Q'.
Proof.
  intros Hc HQ w Hw. destruct (Hc w Hw) as [H1 H2]. split; auto.
Qed.

(** A computation that leaves the store as it is. *)
Lemma preserves_pure {A} h0 (c : M A) :
  (forall w, heap (snd (c w)) = heap w) -> preserves h0 c (fun _ => True).
Proof. intros H w Hw. rewrite H. auto. Qed.

Lemma preserves_ret {A} h0 (a : A) : preserves h0 (ret a) (fun _ => True).
Proof. apply preserves_pure. reflexivity. Qed.

Lemma preserves_raise {A} h0 (e : exn) (Q : A -> Prop) :
  preserves h0 (raise e) Q.
Proof. intros w Hw. split; [exact Hw | discriminate]. Qed.

Lemma preserves_lift {A} h0 (r : res A) : preserves h0 (lift r) (fun _ => True).
Proof. apply preserves_pure. reflexivity. Qed.

Lemma preserves_read h0 (a : array) : preserves h0 (read a) (fun _ => True).
Proof.
  apply preserves_pure. intros w. unfold read.
  destruct (contents a w); reflexivity.
Qed.

Lemma preserves_plot_cost h0 (a : array) :
  preserves h0 (plot_cost a) (fun _ => True).
Proof.
  apply preserves_pure. intros w. unfold plot_cost.
  destruct (contents a w); reflexivity.
Qed.

(** An allocation adds a buffer after those of [h0]. *)
Lemma preserves_alloc h0 (A : matrix) :
  preserves h0 (alloc A) (fun a => (length h0 <= buf a)%nat).
Proof.
  intros w Hw. simpl. split.
  - etrans; [exact Hw | apply prefix_app_r; reflexivity].
  - intros a [= <-]. simpl. apply prefix_length, Hw.
Qed.

(** A write into a buffer that is not one of [h0]. *)
Lemma preserves_write h0 (a : array) (i j : nat) (x : npfloat) :
  (length h0 <= buf a)%nat -> preserves h0 (write a i j x) (fun _ => True).
Proof.
  intros Ha w Hw. unfold write.
  destruct (heap w !! buf a); simpl; split; auto.
  apply prefix_insert_ge; trivial.
Qed.

Ltac preserves_steps :=
  repeat first
    [ apply preserves_ret
    | apply preserves_raise
    | apply preserves_lift
    | apply preserves_read
    | apply preserves_plot_cost
    | eapply preserves_weaken; [apply preserves_alloc | auto]
    | eapply preserves_bind; [| intros ? _] ].

Lemma preserves_np_matmul h0 (a b : array) :
  preserves h0 (np_matmul a b) (fun _ => True).
Proof. unfold np_matmul. preserves_steps. Qed.

Lemma preserves_np_subtract h0 (a b : array) :
  preserves h0 (np_subtract a b) (fun _ => True).
Proof. unfold np_subtract. preserves_steps. Qed.

Lemma preserves_np_transpose h0 (a : array) :
  preserves h0 (np_transpose a) (fun _ => True).
Proof. unfold np_transpose. preserves_steps. Qed.

Lemma preserves_np_square h0 (a : array) :
  preserves h0 (np_square a) (fun _ => True).
Proof. unfold np_square. preserves_steps. Qed.

Lemma preserves_float_mul h0 (c : npfloat) (a : array) :
  preserves h0 (float_mul c a) (fun _ => True).
Proof. unfold float_mul. preserves_steps. Qed.

Lemma preserves_py_sum h0 (a : array) :
  preserves h0 (py_sum a) (fun _ => True).
Proof. unfold py_sum. preserves_steps. Qed.

Lemma preserves_update_theta h0 (X y theta : array) (alpha : npfloat) (m : Z) :
  preserves h0 (update_theta X y theta alpha m) (fun _ => True).
Proof.
  unfold update_theta.
  repeat first
    [ apply preserves_np_matmul | apply preserves_np_subtract
    | apply preserves_np_transpose | apply preserves_float_mul
    | apply preserves_lift
    | eapply preserves_bind; [| intros ? _] ].
Qed.

Lemma preserves_cost_function h0 (X y theta : array) (m : Z) :
  preserves h0 (cost_function X y theta m) (fun _ => True).
Proof.
  unfold cost_function.
  repeat first
    [ apply preserves_np_matmul | apply preserves_np_subtract
    | apply preserves_np_square | apply preserves_py_sum
    | apply preserves_lift | apply preserves_ret
    | eapply preserves_bind; [| intros ? _] ].
Qed.

(** An item assignment into an object allocated after [h0]. *)
Lemma preserves_setitem h0 (a : array) (i j : nat) (v : pyval) :
  (length h0 <= buf a)%nat -> preserves h0 (setitem a i j v) (fun _ => True).
Proof.
  intros Ha. unfold setitem.
  eapply preserves_bind; [apply preserves_read | intros A _].
  destruct ((i <? nrows A)%nat && (j <? ncols A)%nat).
  - eapply preserves_bind; [apply preserves_lift | intros x _].
    apply preserves_write, Ha.
  - apply preserves_raise.
Qed.

Lemma preserves_gd_body h0 (X y : array) (alpha : npfloat) (m : Z)
    (j_vals : array) (i : nat) (theta : array) :
  (length h0 <= buf j_vals)%nat ->
  preserves h0 (gd_body X y alpha m j_vals i theta) (fun _ => True).
Proof.
  intros Hj. unfold gd_body.
  eapply preserves_bind; [apply preserves_update_theta | intros th _].
  eapply preserves_bind; [apply preserves_cost_function | intros J _].
  eapply preserves_bind; [apply preserves_setitem, Hj | intros _ _].
  apply preserves_ret.
Qed.

Lemma preserves_for_each {S} h0 (l : list nat) (body : nat -> S -> M S) (s : S) :
  (forall i s', preserves h0 (body i s') (fun _ => True)) ->
  preserves h0 (for_each l body s) (fun _ => True).
Proof.
  intros Hb. revert s. induction l as [| i l IH]; intros s; simpl.
  - apply preserves_ret.
  - eapply preserves_bind; [apply Hb | intros s' _; apply IH].
Qed.

(** gradient_descent writes into the cost array only, which it allocates
    itself. *)
Lemma preserves_gradient_descent h0 (X y theta : array) (alpha : npfloat)
    (num_iters m : Z) :
  preserves h0 (gradient_descent X y theta alpha num_iters m) (fun _ => True).
Proof.
  unfold gradient_descent.
  eapply preserves_bind with (Q := fun a => (length h0 <= buf a)%nat).
  { unfold np_zeros. destruct (num_iters <? 0)%Z.
    - apply preserves_raise.
    - apply preserves_alloc. }
  intros j_vals Hj.
  eapply preserves_bind.
  { apply preserves_for_each. intros i s'. apply preserves_gd_body, Hj. }
  intros th _.
  eapply preserves_bind; [apply preserves_plot_cost | intros _ _].
  apply preserves_ret.
Qed.

(** The fresh objects: an operator returns an object allocated after the
    buffers [h0]. *)
Lemma fresh_np_subtract h0 (a b : array) :
  preserves h0 (np_subtract a b) (fun r => (length h0 <= buf r)%nat).
Proof.
  unfold np_subtract.
  eapply preserves_bind; [apply preserves_read | intros A _].
  eapply preserves_bind; [apply preserves_read | intros B _].
  eapply preserves_bind; [apply preserves_lift | intros C _].
  apply preserves_alloc.
Qed.

Lemma fresh_update_theta h0 (X y theta : array) (alpha : npfloat) (m : Z) :
  preserves h0 (update_theta X y theta alpha m)
            (fun r => (length h0 <= buf r)%nat).
Proof.
  unfold update_theta.
  repeat first
    [ apply fresh_np_subtract
    | eapply preserves_bind;
        [ first [ apply preserves_np_matmul | apply preserves_np_subtract
                | apply preserves_np_transpose | apply preserves_float_mul
                | apply preserves_lift ]
        | intros ? _ ] ].
Qed.

Lemma fresh_gd_body h0 (X y : array) (alpha : npfloat) (m : Z)
    (j_vals : array) (i : nat) (theta : array) :
  (length h0 <= buf j_vals)%nat ->
  preserves h0 (gd_body X y alpha m j_vals i theta)
            (fun r => (length h0 <= buf r)%nat).
Proof.
  intros Hj. unfold gd_body.
  eapply preserves_bind; [apply fresh_update_theta | intros th Hth].
  eapply preserves_bind; [apply preserves_cost_function | intros J _].
  eapply preserves_bind; [apply preserves_setitem, Hj | intros _ _].
  intros w Hw. split; [exact Hw |]. intros a [= <-]. exact Hth.
Qed.

Lemma fresh_for_each {S} h0 (Q : S -> Prop) (l : list nat)
    (body : nat -> S -> M S) (s : S) :
  (forall i s', preserves h0 (body i s') Q) ->
  l <> [] \/ Q s ->
  preserves h0 (for_each l body s) Q.
Proof.
  intros Hb. revert s. induction l as [| i l IH]; intros s Hs; simpl.
  - destruct Hs as [Hs | Hs]; [congruence |].
    intros w Hw. split; [exact Hw |]. intros a [= <-]. exact Hs.
  - eapply preserves_bind; [apply Hb |]. intros s' Hs'. apply IH. auto.
Qed.

(** After at least one iteration the object returned by gradient_descent
    is one that the call allocated. *)
Lemma fresh_gradient_descent h0 (X y theta : array) (alpha : npfloat)
    (num_iters m : Z) :
  (1 <= num_iters)%Z ->
  preserves h0 (gradient_descent X y theta alpha num_iters m)
            (fun r => (length h0 <= buf r)%nat).
Proof.
  intros Hn. unfold gradient_descent.
  eapply preserves_bind with (Q := fun a => (length h0 <= buf a)%nat).
  { unfold np_zeros. destruct (num_iters <? 0)%Z.
    - apply preserves_raise.
    - apply preserves_alloc. }
  intros j_vals Hj.
  eapply preserves_bind with (Q := fun a => (length h0 <= buf a)%nat).
  { apply fresh_for_each.
    - intros i s'. apply fresh_gd_body, Hj.
    - left. unfold range. destruct (Z.to_nat num_iters) eqn:E; [lia |].
      simpl. discriminate. }
  intros th Hth.
  eapply preserves_bind; [apply preserves_plot_cost | intros _ _].
  intros w Hw. split; [exact Hw |]. intros a [= <-]. exact Hth.
Qed.

(** The entries of the direct update: theta_j minus c times the sum over
    the rows of X[i][j] * (X_i . theta - y_i). *)
Lemma get_direct_update (X y theta : matrix) (c : npfloat) (j : nat) :
  ncols X = nrows theta -> (j < nrows theta)%nat -> (0 < ncols theta)%nat ->
  get (direct_update X y theta c) j 0 =
  fsub (get theta j 0)
       (fmul c (fsum (nrows X)
                  (fun i => fmul (get X i j)
                              (fsub (dot_row X theta i) (get y i 0))))).
Proof.
  intros Hs Hj Hc. unfold direct_update, msub, mzip, mscale, mmap, mmul.
  unfold transpose. tab_simpl. do 2 f_equal.
  apply fsum_ext. intros i Hi. tab_simpl. reflexivity.
Qed.

(** On finite arrays the cost is the one of the specification over the
    reals. *)
Lemma mse_cost_finite (X y theta : matrix) (m : Z) :
  finite_array X -> finite_array y -> finite_array theta ->
  ncols X = nrows theta -> nrows y = nrows X ->
  (0 < ncols y)%nat -> (0 < ncols theta)%nat ->
  mse_cost X y theta m = Real (mse_R X y theta m).
Proof.
  intros FX Fy Fth S1 S2 Cy Cth. unfold mse_cost, mse_R.
  rewrite (fsum_Real _ _
             (fun i => (dot_R X theta i - entry y i 0)
                       * (dot_R X theta i - entry y i 0))); [reflexivity |].
  intros i Hi. unfold dot_row.
  rewrite (fsum_Real _ _ (fun k => entry X i k * entry theta k 0)).
  - rewrite (get_finite y) by (trivial; lia). reflexivity.
  - intros k Hk. rewrite (get_finite X), (get_finite theta) by (trivial; lia).
    reflexivity.
Qed.

(** normalize itself has no guard: called on the single feature column of
    [ex_frame1] it would rescale it; the values 1 and 3 become -1 and 1. *)
Remark normalize_rescales_single_column :
  let F := tab 2 1 (get ex_frame1) in
  get (normalize_value F) 0 0 = Real (-1) /\ get F 0 0 = Real 1.
Proof.
  intros F.
  assert (Hv : var_R F 0 = 1) by (unfold F; eval_stats; lra).
  assert (Hs : std_R F 0 = 1) by (unfold std_R; rewrite Hv; apply sqrt_1).
  split; [| reflexivity].
  rewrite normalize_value_finite.
  - unfold standardized. rewrite get_tab by (simpl; lia). rewrite Hs.
    f_equal. unfold F. eval_stats. lra.
  - intros i j Hi Hj. simpl in Hi, Hj.
    destruct i as [| [| i]], j as [| j]; simpl; trivial; lia.
  - simpl. lia.
  - intros j Hj. simpl in Hj. replace j with 0%nat by lia. rewrite Hs. lra.
Qed.

(* ================================================================== *)
(** ** Facts about binary64 *)

Module Binary64Facts.

Import Floats.

(** Whatever the dividend, a quotient by +0 or -0 is an infinity or NaN. *)
Lemma div_zero_not_finite (x s : float) :
  is_zero s = true -> is_finite (x / s) = false.
Proof.
  unfold is_zero, is_finite, is_nan, is_infinity.
  rewrite !eqb_spec, !abs_spec, !div_spec.
  replace (Prim2SF zero) with (SpecFloat.S754_zero false) by reflexivity.
  replace (Prim2SF infinity) with (SpecFloat.S754_infinity false)
    by reflexivity.
  intros H.
  destruct (Prim2SF s) as [ss | ss | | ss sm se];
    try (cbv in H; discriminate H);
    try (destruct ss; cbv in H; discriminate H).
  destruct (Prim2SF x) as [xs | xs | | xs xm xe]; try reflexivity;
    destruct xs, ss; reflexivity.
Qed.

Lemma scale_zero_not_finite (x mu s : float) :
  is_zero s = true -> is_finite (Binary64.scale x mu s) = false.
Proof. apply div_zero_not_finite. Qed.

(** The entries of (X - mu) / sigma. *)
Lemma get_center_scale (mu sigma : list float) (X : list (list float))
    (i j : nat) :
  (j < length (nth i X []))%nat ->
  Binary64.get (Binary64.center_scale mu sigma X) i j =
  Binary64.scale (Binary64.get X i j) (Binary64.vget mu j)
                 (Binary64.vget sigma j).
Proof.
  intros Hj. unfold Binary64.get, Binary64.center_scale.
  set (f := fun r : list float =>
              imap (fun j x => Binary64.scale x (Binary64.vget mu j)
                                 (Binary64.vget sigma j)) r).
  change (@nil float) with (f []) at 1. rewrite map_nth.
  unfold f. generalize dependent (nth i X []). intros r Hj.
  rewrite !nth_lookup, list_lookup_imap.
  destruct (r !! j) as [x |] eqn:E; [reflexivity |].
  apply lookup_ge_None in E. lia.
Qed.

End Binary64Facts.

(* ================================================================== *)
(** ** The update step and the cost (C1, C2) *)

(** C1.  For X of shape (m, n), y of shape (m, 1), theta of shape (n, 1)
    and m >= 1, the three statements of one iteration of gradient_descent
    that rebind theta (transpose of X theta - y, product by X, transpose,
    subtraction) succeed and leave in theta exactly
    theta - (alpha / m) * X^T (X theta - y). *)
Theorem update_theta_direct_gradient
    (X y theta : array) (AX Ay Ath : matrix) (alpha : npfloat) (m : Z)
    (n : nat) (w : world) :
  contents X w = Some AX -> contents y w = Some Ay ->
  contents theta w = Some Ath ->
  (1 <= m)%Z ->
  shape AX = (Z.to_nat m, n) -> shape Ay = (Z.to_nat m, 1%nat) ->
  shape Ath = (n, 1%nat) ->
  let c := fdiv alpha (Real (IZR m)) in
  exists theta' w',
    runs (update_theta X y theta alpha m) w theta' w' /\
    contents theta' w' = Some (direct_update AX Ay Ath c) /\
    shape (direct_update AX Ay Ath c) = (n, 1%nat) /\
    forall j, (j < n)%nat ->
      get (direct_update AX Ay Ath c) j 0 =
      fsub (get Ath j 0)
           (fmul c (fsum (Z.to_nat m)
                      (fun i => fmul (get AX i j)
                                  (fsub (dot_row AX Ath i) (get Ay i 0))))).
Proof.
  intros HX Hy Hth Hm SX Sy Sth c. unfold shape in *.
  injection SX as SX1 SX2. injection Sy as Sy1 Sy2.
  injection Sth as St1 St2.
  destruct (runs_update_theta X y theta AX Ay Ath alpha m w)
    as (theta' & w' & Run & Hc & _); try congruence; try lia.
  exists theta', w'. split; [exact Run |]. split; [| split].
  - rewrite Hc, update_value_direct by congruence. reflexivity.
  - simpl. congruence.
  - intros j Hj. rewrite <- SX1. apply get_direct_update; lia.
Qed.

Lemma update_theta_direct_gradient_witness :
  exists theta' w',
    runs (update_theta ref_X ref_y ref_theta (Real (1/10)) 2) ex_world
         theta' w' /\
    contents theta' w' =
      Some (direct_update ex_X ex_y ex_theta
              (fdiv (Real (1/10)) (Real (IZR 2)))).
Proof.
  destruct (update_theta_direct_gradient ref_X ref_y ref_theta
              ex_X ex_y ex_theta (Real (1/10)) 2 2 ex_world)
    as (theta' & w' & Run & Hc & _); first [reflexivity | lia | idtac].
  exists theta', w'. auto.
Defined.

(** C2.  For X of shape (m, n), y of shape (m, 1), theta of shape (n, 1)
    and a positive integer m, cost_function returns (as an array of one
    element) 1/(2m) times the sum over the m rows of the squared residual
    (X_i . theta - y_i)^2. *)
Theorem cost_function_mse
    (X y theta : array) (AX Ay Ath : matrix) (m : Z) (n : nat) (w : world) :
  contents X w = Some AX -> contents y w = Some Ay ->
  contents theta w = Some Ath ->
  (1 <= m)%Z ->
  shape AX = (Z.to_nat m, n) -> shape Ay = (Z.to_nat m, 1%nat) ->
  shape Ath = (n, 1%nat) ->
  (exists w',
      runs (cost_function X y theta m) w (PyArr [mse_cost AX Ay Ath m]) w') /\
  (finite_array AX -> finite_array Ay -> finite_array Ath ->
   mse_cost AX Ay Ath m = Real (mse_R AX Ay Ath m)).
Proof.
  unfold shape. intros HX Hy Hth Hm SX Sy Sth.
  injection SX as SX1 SX2. injection Sy as Sy1 Sy2.
  injection Sth as St1 St2.
  split; [| intros; apply mse_cost_finite; trivial; lia].
  destruct (runs_cost_function X y theta AX Ay Ath m w)
    as (w' & Run & _); try congruence; try lia.
  exists w'. replace (PyArr [mse_cost AX Ay Ath m])
    with (cost_value AX Ay Ath m); [exact Run |].
  unfold cost_value, mse_cost.
  rewrite sum_rows_col by (simpl; congruence). simpl nrows.
  destruct (nrows AX) as [| r] eqn:Er; [lia |].
  rewrite fdiv_Real by (apply not_0_IZR; lia).
  rewrite mult_IZR. unfold py_mul. cbn [map].
  rewrite (fsum_ext _ _
             (fun i => fsquare (fsub (dot_row AX Ath i) (get Ay i 0))));
    [reflexivity |].
  intros i Hi. unfold mmap, msub, mzip, mmul. tab_simpl. reflexivity.
Qed.

Lemma cost_function_mse_witness :
  exists w',
    runs (cost_function ref_X ref_y ref_theta 2) ex_world
         (PyArr [mse_cost ex_X ex_y ex_theta 2]) w'.
Proof.
  apply (cost_function_mse ref_X ref_y ref_theta ex_X ex_y ex_theta 2 2
           ex_world); first [reflexivity | lia].
Defined.

(* ================================================================== *)
(** ** The run of gradient_descent (C3, C4, C5, C8) *)

(** C3.  In a run of gradient_descent with num_iters >= 0 (arrays of
    conforming shapes, m <> 0), the cost history j_vals has shape
    (num_iters, 1), and for every i < num_iters its entry i is what
    cost_function returns on the theta produced by update step i+1, the
    steps being those of update_theta. *)
Theorem cost_history_of_run
    (X y theta : array) (AX Ay Ath : matrix) (alpha : npfloat)
    (num_iters m : Z) (w : world) :
  contents X w = Some AX -> contents y w = Some Ay ->
  contents theta w = Some Ath ->
  ncols AX = nrows Ath -> nrows Ay = nrows AX ->
  ncols Ay = 1%nat -> ncols Ath = 1%nat ->
  m <> 0%Z -> (0 <= num_iters)%Z ->
  let c := fdiv alpha (Real (IZR m)) in
  let thetas := theta_after AX Ay Ath c in
  exists th' w' hist,
    runs (gradient_descent X y theta alpha num_iters m) w th' w' /\
    contents (fresh w) w' = Some hist /\
    figures w' = figures w ++ [hist] /\
    shape hist = (Z.to_nat num_iters, 1%nat) /\
    thetas 0%nat = Ath /\
    (forall k th wk,
        contents X wk = Some AX -> contents y wk = Some Ay ->
        contents th wk = Some (thetas k) ->
        exists th1 wk',
          runs (update_theta X y th alpha m) wk th1 wk' /\
          contents th1 wk' = Some (thetas (S k))) /\
    (forall i th wi,
        (i < Z.to_nat num_iters)%nat ->
        contents X wi = Some AX -> contents y wi = Some Ay ->
        contents th wi = Some (thetas (S i)) ->
        exists J wi',
          runs (cost_function X y th m) wi J wi' /\
          as_scalar J = Ok (get hist i 0)).
Proof.
  intros HX Hy Hth S1 S2 S3 S4 Hm Hn c thetas.
  destruct (runs_gradient_descent X y AX Ay Ath alpha m w HX Hy S1 S2 S3 S4
              Hm theta num_iters Hth Hn)
    as (th' & w' & Run & _ & _ & Hj & Hfig).
  exists th', w', (history AX Ay Ath c m (Z.to_nat num_iters) (Z.to_nat num_iters)).
  repeat split; trivial.
  - intros k th wk HXk Hyk Hthk.
    pose proof (shape_theta_after AX Ay Ath c k) as [Hr Hc].
    destruct (runs_update_theta X y th AX Ay _ alpha m wk HXk Hyk Hthk)
      as (th1 & wk' & Run1 & Hth1 & _); try (unfold thetas; congruence).
    exists th1, wk'. split; trivial.
  - intros i th wi Hi HXi Hyi Hthi.
    pose proof (shape_theta_after AX Ay Ath c (S i)) as [Hr Hc].
    destruct (runs_cost_function X y th AX Ay _ m wi HXi Hyi Hthi)
      as (wi' & Run2 & _); try (unfold thetas; congruence).
    eexists _, wi'. split; [exact Run2 |].
    rewrite cost_value_scalar by (unfold thetas; congruence).
    f_equal. unfold history. rewrite get_tab by lia.
    destruct (Nat.ltb_spec i (Z.to_nat num_iters)); [reflexivity | lia].
Qed.

Lemma cost_history_of_run_witness :
  exists th' w' hist,
    runs (gradient_descent ref_X ref_y ref_theta (Real (1/10)) 3 2)
         ex_world th' w' /\
    figures w' = [hist] /\ shape hist = (3%nat, 1%nat).
Proof.
  destruct (cost_history_of_run ref_X ref_y ref_theta ex_X ex_y ex_theta
              (Real (1/10)) 3 2 ex_world)
    as (th' & w' & hist & Run & _ & Hfig & Hshape & _);
    try reflexivity; try lia.
  exists th', w', hist. auto.
Defined.

(** C4, as the code has it.  On arrays of conforming shapes with m <> 0 and
    num_iters >= 0, gradient_descent returns one object, the theta
    obtained after num_iters update steps; the cost history is the array
    handed to plot_cost, and is not part of what is returned. *)
Theorem gradient_descent_returns_theta
    (X y theta : array) (AX Ay Ath : matrix) (alpha : npfloat)
    (num_iters m : Z) (w : world) :
  contents X w = Some AX -> contents y w = Some Ay ->
  contents theta w = Some Ath ->
  ncols AX = nrows Ath -> nrows Ay = nrows AX ->
  ncols Ay = 1%nat -> ncols Ath = 1%nat ->
  m <> 0%Z -> (0 <= num_iters)%Z ->
  let c := fdiv alpha (Real (IZR m)) in
  let n := Z.to_nat num_iters in
  exists (th' : array) w',
    runs (gradient_descent X y theta alpha num_iters m) w th' w' /\
    contents th' w' = Some (theta_after AX Ay Ath c n) /\
    shape (theta_after AX Ay Ath c n) = shape Ath /\
    figures w' = figures w ++ [history AX Ay Ath c m n n].
Proof.
  intros HX Hy Hth S1 S2 S3 S4 Hm Hn c n.
  destruct (runs_gradient_descent X y AX Ay Ath alpha m w HX Hy S1 S2 S3 S4
              Hm theta num_iters Hth Hn)
    as (th' & w' & Run & Hc & _ & _ & Hfig).
  exists th', w'. repeat split; trivial.
  unfold shape. destruct (shape_theta_after AX Ay Ath c n) as [-> ->].
  reflexivity.
Qed.

Lemma gradient_descent_returns_theta_witness :
  exists (th' : array) w',
    runs (gradient_descent ref_X ref_y ref_theta (Real (1/10)) 3 2)
         ex_world th' w' /\
    contents th' w' =
      Some (theta_after ex_X ex_y ex_theta
              (fdiv (Real (1/10)) (Real (IZR 2))) 3).
Proof.
  destruct (gradient_descent_returns_theta ref_X ref_y ref_theta
              ex_X ex_y ex_theta (Real (1/10)) 3 2 ex_world)
    as (th' & w' & Run & Hc & _); try reflexivity; try lia.
  exists th', w'. auto.
Defined.

(** C8, against the claim as stated.  On the small data set, a call of no
    iteration and a call of one iteration return an object holding the
    same array, the theta of shape (2, 1) that was passed, while the cost
    history of the first is empty and that of the second has one entry.
    What the call of no iteration returns is theta alone: the empty
    history is what was plotted, it is not returned with theta. *)
Lemma zero_iterations_return_theta_alone :
  exists w0 th1 w1 h1,
    runs (gradient_descent ref_X ref_y ref_theta (Real (1/10)) 0 2)
         ex_world ref_theta w0 /\
    runs (gradient_descent ref_X ref_y ref_theta (Real (1/10)) 1 2)
         ex_world th1 w1 /\
    contents ref_theta w0 = Some ex_theta /\
    contents th1 w1 = Some ex_theta /\
    shape ex_theta = (2%nat, 1%nat) /\
    figures w0 = [Mat 0 1 []] /\ figures w1 = [h1] /\
    nrows h1 = 1%nat.
Proof.
  destruct (runs_gradient_descent ref_X ref_y ex_X ex_y ex_theta
              (Real (1/10)) 2 ex_world) with (theta := ref_theta)
              (num_iters := 1%Z)
    as (th1 & w1 & Run1 & Hc1 & _ & _ & Hf1); try reflexivity; try lia.
  rewrite fdiv_Real in Hc1 by lra.
  rewrite ex_theta_after in Hc1.
  simpl in Hf1.
  eexists _, th1, w1, _.
  split; [apply runs_gradient_descent_0 |].
  split; [exact Run1 |].
  split; [reflexivity |]. split; [exact Hc1 |].
  split; [reflexivity |]. split; [reflexivity |].
  split; [exact Hf1 | reflexivity].
Qed.

(** C8, as the code has it.  With num_iters = 0 no update step is
    performed: gradient_descent returns theta only, the very object it
    received, whose array is untouched (the store only gains the cost
    array); the cost history is empty, of shape (0, 1), and it is handed
    to plot_cost, not returned.  This holds for every X, y, theta, alpha
    and m. *)
Theorem gradient_descent_zero_iterations
    (X y theta : array) (alpha : npfloat) (m : Z) (w : world) :
  exists w' hist,
    runs (gradient_descent X y theta alpha 0 m) w theta w' /\
    heap w' = heap w ++ [hist] /\
    figures w' = figures w ++ [hist] /\
    hist = Mat 0 1 [].
Proof.
  eexists _, _. split; [apply runs_gradient_descent_0 |].
  repeat split.
Qed.

(** C4, against the claim as stated.  Two calls on the small data set, of
    one and of two iterations: both return an object holding the same
    array, the fitted theta, while their cost histories have one and two
    entries.  What is returned does not carry the cost history. *)
Lemma returned_value_without_history :
  exists th1 w1 th2 w2 h1 h2,
    runs (gradient_descent ref_X ref_y ref_theta (Real (1/10)) 1 2)
         ex_world th1 w1 /\
    runs (gradient_descent ref_X ref_y ref_theta (Real (1/10)) 2 2)
         ex_world th2 w2 /\
    contents th1 w1 = Some ex_theta /\
    contents th2 w2 = Some ex_theta /\
    figures w1 = [h1] /\ figures w2 = [h2] /\
    nrows h1 = 1%nat /\ nrows h2 = 2%nat.
Proof.
  destruct (runs_gradient_descent ref_X ref_y ex_X ex_y ex_theta
              (Real (1/10)) 2 ex_world) with (theta := ref_theta)
              (num_iters := 1%Z)
    as (th1 & w1 & Run1 & Hc1 & _ & _ & Hf1); try reflexivity; try lia.
  destruct (runs_gradient_descent ref_X ref_y ex_X ex_y ex_theta
              (Real (1/10)) 2 ex_world) with (theta := ref_theta)
              (num_iters := 2%Z)
    as (th2 & w2 & Run2 & Hc2 & _ & _ & Hf2); try reflexivity; try lia.
  rewrite fdiv_Real in Hc1, Hc2 by lra.
  rewrite ex_theta_after in Hc1, Hc2.
  simpl in Hf1, Hf2.
  eexists th1, w1, th2, w2, _, _.
  split; [exact Run1 |]. split; [exact Run2 |].
  split; [exact Hc1 |]. split; [exact Hc2 |].
  split; [exact Hf1 |]. split; [exact Hf2 |].
  split; reflexivity.
Qed.

(** C5, against the claim as stated.  A call with a negative learning
    rate, an invalid configuration, raises nothing: it runs its iteration
    and returns. *)
Lemma negative_alpha_is_accepted :
  invalid_config (Real (-1)) 1 2 /\
  exists th' w',
    runs (gradient_descent ref_X ref_y ref_theta (Real (-1)) 1 2)
         ex_world th' w'.
Proof.
  split.
  - right. right. simpl. lra.
  - destruct (runs_gradient_descent ref_X ref_y ex_X ex_y ex_theta
                (Real (-1)) 2 ex_world) with (theta := ref_theta)
                (num_iters := 1%Z)
      as (th' & w' & Run & _); try reflexivity; try lia.
    exists th', w'. exact Run.
Qed.

(** C5, as the code has it.  gradient_descent checks neither m nor alpha.
    A negative num_iters raises ValueError when the cost array is
    allocated, before the loop, the store untouched.  With num_iters = 0
    the call returns theta whatever m and alpha are.  With m = 0 and
    num_iters >= 1 the first iteration raises ZeroDivisionError at
    alpha / m, once X theta - y and its product by X have been computed.
    With m <> 0 and num_iters >= 0 the call runs to its end and returns,
    whatever the signs of m and alpha. *)
Theorem gradient_descent_configuration
    (X y theta : array) (AX Ay Ath : matrix) (alpha : npfloat) (w : world) :
  contents X w = Some AX -> contents y w = Some Ay ->
  contents theta w = Some Ath ->
  ncols AX = nrows Ath -> nrows Ay = nrows AX ->
  ncols Ay = 1%nat -> ncols Ath = 1%nat ->
  (forall num_iters m,
      (num_iters < 0)%Z ->
      raises (gradient_descent X y theta alpha num_iters m) w ValueError w) /\
  (forall m,
      exists w', runs (gradient_descent X y theta alpha 0 m) w theta w') /\
  (forall num_iters,
      (1 <= num_iters)%Z ->
      let r := msub (mmul AX Ath) Ay in
      raises (gradient_descent X y theta alpha num_iters 0) w
             ZeroDivisionError
             (push (mmul (transpose r) AX)
                (push r
                   (push (mmul AX Ath)
                      (push (tab (Z.to_nat num_iters) 1 (fun _ _ => Real 0))
                         w))))) /\
  (forall num_iters m,
      (0 <= num_iters)%Z -> m <> 0%Z ->
      exists th' w',
        runs (gradient_descent X y theta alpha num_iters m) w th' w').
Proof.
  intros HX Hy Hth S1 S2 S3 S4. split; [| split; [| split]].
  - intros num_iters m Hn. unfold raises, gradient_descent, bind, np_zeros.
    destruct (Z.ltb_spec num_iters 0); [reflexivity | lia].
  - intros m. eexists. apply runs_gradient_descent_0.
  - intros num_iters Hn r. unfold gradient_descent.
    eapply raises_bind.
    { unfold np_zeros. destruct (Z.ltb_spec num_iters 0); [lia |].
      apply runs_alloc. }
    apply raises_bind_l. unfold range.
    destruct (Z.to_nat num_iters) as [| n] eqn:En; [lia |].
    simpl. apply raises_bind_l. unfold gd_body. apply raises_bind_l.
    apply (raises_update_theta_zero X y theta AX Ay Ath);
      auto with store; congruence.
  - intros num_iters m Hn Hm.
    destruct (runs_gradient_descent X y AX Ay Ath alpha m w HX Hy S1 S2 S3 S4
                Hm theta num_iters Hth Hn)
      as (th' & w' & Run & _).
    exists th', w'. exact Run.
Qed.

Lemma gradient_descent_configuration_witness :
  raises (gradient_descent ref_X ref_y ref_theta (Real (1/10)) (-1) 2)
         ex_world ValueError ex_world /\
  (exists w',
      runs (gradient_descent ref_X ref_y ref_theta (Real (1/10)) 0 0)
           ex_world ref_theta w') /\
  (exists w',
      raises (gradient_descent ref_X ref_y ref_theta (Real (1/10)) 1 0)
             ex_world ZeroDivisionError w' /\
      length (heap w') = 7%nat) /\
  (exists th' w',
      runs (gradient_descent ref_X ref_y ref_theta (Real (-1)) 1 (-2))
           ex_world th' w').
Proof.
  destruct (gradient_descent_configuration ref_X ref_y ref_theta
              ex_X ex_y ex_theta (Real (1/10)) ex_world)
    as (H1 & H2 & H3 & _); try reflexivity.
  destruct (gradient_descent_configuration ref_X ref_y ref_theta
              ex_X ex_y ex_theta (Real (-1)) ex_world)
    as (_ & _ & _ & H4); try reflexivity.
  split; [apply H1; lia |]. split; [apply H2 |]. split.
  - eexists. split; [apply H3; lia | reflexivity].
  - apply H4; lia.
Defined.

(* ================================================================== *)
(** ** Normalization (C6, C7, C9) *)

(** C6.  The feature columns that load_data extracts from a frame are
    normalized only when there are more than one of them: with exactly one
    feature column (and with none) the design matrix holds the feature
    values as they are behind the bias column; with more than one it holds
    what normalize returns. *)
Theorem load_data_normalizes_several_features_only (data : matrix) (w : world) :
  (1 <= ncols data)%nat ->
  let m := nrows data in
  let k := (ncols data - 1)%nat in
  let features := tab m k (get data) in
  exists X y theta w',
    runs (load_data data) w (X, y, theta, Z.of_nat m, Z.of_nat (S k)) w' /\
    (k = 1%nat ->
       contents X w' = Some (with_bias features) /\
       forall i, (i < m)%nat -> get (with_bias features) i 1 = get data i 0) /\
    ((k <= 1)%nat -> contents X w' = Some (with_bias features)) /\
    ((1 < k)%nat ->
       contents X w' = Some (with_bias (normalize_value features))).
Proof.
  intros Hk m k features.
  destruct (runs_load_data data w Hk) as (X & y & theta & w' & Run & HX & _).
  fold m k features in Run, HX.
  exists X, y, theta, w'. split; [exact Run |].
  split; [| split].
  - intros E. rewrite E in HX. simpl in HX. split; [exact HX |].
    intros i Hi. unfold with_bias, features. rewrite E. simpl ncols.
    rewrite get_tab by (simpl; lia). simpl.
    apply get_tab; lia.
  - intros E. destruct (Nat.ltb_spec 1 k); [lia | exact HX].
  - intros E. destruct (Nat.ltb_spec 1 k); [exact HX | lia].
Qed.

Lemma load_data_normalizes_several_features_only_witness :
  (exists X y theta w',
      runs (load_data ex_frame1) empty_world (X, y, theta, 2%Z, 2%Z) w' /\
      contents X w' = Some (with_bias (tab 2 1 (get ex_frame1)))) /\
  (exists X y theta w',
      runs (load_data ex_frame) empty_world (X, y, theta, 2%Z, 3%Z) w' /\
      contents X w' =
        Some (with_bias (normalize_value (tab 2 2 (get ex_frame))))).
Proof.
  split.
  - destruct (load_data_normalizes_several_features_only ex_frame1
                empty_world)
      as (X & y & theta & w' & Run & H1 & _); [simpl; lia |].
    exists X, y, theta, w'. split; [exact Run |].
    apply H1. reflexivity.
  - destruct (load_data_normalizes_several_features_only ex_frame
                empty_world)
      as (X & y & theta & w' & Run & _ & _ & H3); [simpl; lia |].
    exists X, y, theta, w'. split; [exact Run |].
    apply H3. simpl. lia.
Defined.

(** C7.  For X with m >= 1 rows and at least 2 columns, all entries finite
    and every column of standard deviation other than 0, normalize
    returns an array of the shape of X whose entry (i, j) is
    (X[i][j] - mean_j) / stddev_j, and every column of that array has
    mean 0 and standard deviation 1. *)
Theorem normalize_standardizes (X : array) (A : matrix) (w : world) :
  contents X w = Some A ->
  finite_array A ->
  (1 <= nrows A)%nat -> (2 <= ncols A)%nat ->
  (forall j, (j < ncols A)%nat -> std_R A j <> 0) ->
  exists r w' Z,
    runs (normalize X) w r w' /\
    contents r w' = Some Z /\
    shape Z = shape A /\
    (forall i j, (i < nrows A)%nat -> (j < ncols A)%nat ->
       get Z i j = Real ((entry A i j - mean_R A j) / std_R A j)) /\
    (forall j, (j < ncols A)%nat ->
       col_mean Z j = Real 0 /\ col_std Z j = Real 1).
Proof.
  intros HX Hfin Hr Hc Hstd.
  destruct (runs_normalize X A w HX) as (r & w' & Run & Hcont & _).
  rewrite (normalize_value_finite A Hfin Hr Hstd) in Hcont.
  exists r, w', (standardized A).
  split; [exact Run |]. split; [exact Hcont |]. split; [reflexivity |]. split.
  - intros i j Hi Hj. unfold standardized. apply get_tab; trivial.
  - intros j Hj. split.
    + rewrite col_mean_finite by (trivial; apply finite_standardized).
      f_equal. apply mean_R_standardized; trivial.
    + rewrite col_std_finite by (trivial; apply finite_standardized).
      f_equal. apply std_R_standardized; auto.
Qed.

Lemma normalize_standardizes_witness :
  exists r w' Z,
    runs (normalize (Array 0 false)) (World [ex_varied] []) r w' /\
    contents r w' = Some Z /\
    col_mean Z 0 = Real 0 /\ col_std Z 0 = Real 1.
Proof.
  destruct (normalize_standardizes (Array 0 false) ex_varied
              (World [ex_varied] []))
    as (r & w' & Z & Run & Hc & _ & _ & Hstat).
  - reflexivity.
  - apply ex_varied_finite.
  - simpl. lia.
  - simpl. lia.
  - apply ex_varied_std.
  - exists r, w', Z. split; [exact Run |]. split; [exact Hc |].
    apply Hstat. simpl. lia.
Defined.

(** C9, against the claim as stated.  In binary64 the column 0.1, 0.1, 0.1
    has variance 0 as a column of numbers, but the mean computed for it is
    not 0.1 and the standard deviation computed for it is not 0: normalize
    divides by a number other than 0, and the column comes out as -1, -1,
    -1, all finite. *)
Lemma constant_column_normalizes_to_finite_values :
  Binary64.column Binary64.ex_constant 0 = Binary64.ex_tenths /\
  PrimFloat.is_zero (Binary64.std Binary64.ex_tenths) = false /\
  PrimFloat.eqb (Binary64.mean Binary64.ex_tenths)
                (Binary64.vget Binary64.ex_tenths 0) = false /\
  Binary64.column (Binary64.normalize Binary64.ex_constant) 0 =
    Binary64.ex_minus_ones /\
  forallb PrimFloat.is_finite Binary64.ex_minus_ones = true.
Proof. vm_compute. repeat split. Qed.

(** C9, as the code has it.  Where the standard deviation computed for a
    column of X is 0, normalize divides by it all the same: the call
    raises nothing and returns an array whose entries in that column are
    not finite.  With exact numbers, a column of variance 0 is such a
    column.  In binary64, whatever np.mean and np.std have computed, an
    entry of a column whose sigma is zero comes out as (x - mu) / 0 and is
    an infinity or NaN; there the variance of the column of numbers does
    not decide it, the computed sigma does. *)
Theorem normalize_zero_std_divides_by_zero :
  (forall (X : array) (A : matrix) (j : nat) (w : world),
     contents X w = Some A ->
     (j < ncols A)%nat ->
     col_std A j = Real 0 ->
     exists r w' Z,
       runs (normalize X) w r w' /\
       contents r w' = Some Z /\
       forall i, (i < nrows A)%nat ->
         get Z i j = fdiv (fsub (get A i j) (col_mean A j)) (Real 0) /\
         ~ Float.is_finite (get Z i j)) /\
  (forall (A : matrix) (j : nat),
     col_var A j = Real 0 -> col_std A j = Real 0) /\
  (forall X : list (list PrimFloat.float),
     Binary64.normalize X =
     Binary64.center_scale (Binary64.means X) (Binary64.stds X) X) /\
  (forall (X : list (list PrimFloat.float)) (mu sigma : list PrimFloat.float)
          (i j : nat),
     (j < length (nth i X []))%nat ->
     PrimFloat.is_zero (Binary64.vget sigma j) = true ->
     Binary64.get (Binary64.center_scale mu sigma X) i j =
       Binary64.scale (Binary64.get X i j) (Binary64.vget mu j)
                      (Binary64.vget sigma j) /\
     PrimFloat.is_finite (Binary64.get (Binary64.center_scale mu sigma X) i j)
       = false).
Proof.
  split; [| split; [| split]].
  - intros X A j w HX Hj Hs.
    destruct (runs_normalize X A w HX) as (r & w' & Run & Hcont & _).
    exists r, w', (normalize_value A).
    split; [exact Run |]. split; [exact Hcont |].
    intros i Hi. unfold normalize_value. rewrite get_tab by trivial.
    rewrite Hs. split; [reflexivity | apply fdiv_zero_not_finite].
  - intros A j. apply col_std_zero_variance.
  - reflexivity.
  - intros X mu sigma i j Hj Hz.
    rewrite Binary64Facts.get_center_scale by exact Hj.
    split; [reflexivity |].
    apply Binary64Facts.scale_zero_not_finite. exact Hz.
Qed.

Lemma normalize_zero_std_divides_by_zero_witness :
  (exists r w' Z,
      runs (normalize (Array 0 false)) (World [ex_features] []) r w' /\
      contents r w' = Some Z /\
      ~ Float.is_finite (get Z 0 0) /\ ~ Float.is_finite (get Z 1 0)) /\
  PrimFloat.is_finite
    (Binary64.get (Binary64.normalize Binary64.ex_features64) 0 0) = false /\
  PrimFloat.is_finite
    (Binary64.get (Binary64.normalize Binary64.ex_features64) 1 0) = false.
Proof.
  destruct normalize_zero_std_divides_by_zero as (Hexact & Hvar & Hdef & Hbin).
  split; [| split].
  - destruct (Hexact (Array 0 false) ex_features 0%nat
                (World [ex_features] []))
      as (r & w' & Z & Run & Hc & Hnf).
    + reflexivity.
    + simpl. lia.
    + apply Hvar. apply ex_features_variance.
    + exists r, w', Z. split; [exact Run |]. split; [exact Hc |].
      split; apply Hnf; simpl; lia.
  - rewrite Hdef. apply Hbin; [simpl; lia | vm_compute; reflexivity].
  - rewrite Hdef. apply Hbin; [simpl; lia | vm_compute; reflexivity].
Defined.

(* ================================================================== *)
(** ** The arrays of the caller (C10) *)

(** C10.  Whatever its arguments and its outcome, a call of
    gradient_descent leaves every array of the caller's store as it was,
    the arrays behind X, y and the initial theta among them: the only
    array it writes into is the cost array that it allocates, and the
    theta it returns after at least one update step is a new object, not
    one of the caller's. *)
Theorem gradient_descent_leaves_inputs
    (X y theta : array) (alpha : npfloat) (num_iters m : Z) (w : world) :
  let out := gradient_descent X y theta alpha num_iters m w in
  heap w `prefix_of` heap (snd out) /\
  (forall (a : array) (A : matrix),
      contents a w = Some A -> contents a (snd out) = Some A) /\
  (forall theta' : array,
      (1 <= num_iters)%Z -> fst out = Ok theta' ->
      (length (heap w) <= buf theta')%nat).
Proof.
  intros out.
  assert (H : heap w `prefix_of` heap (snd out)).
  { apply (preserves_gradient_descent (heap w) X y theta alpha num_iters m w).
    reflexivity. }
  split; [exact H |]. split.
  - intros a A Ha. eapply contents_prefix; eassumption.
  - intros theta' Hn Hout.
    apply (fresh_gradient_descent (heap w) X y theta alpha num_iters m Hn w);
      [reflexivity | exact Hout].
Qed.

Lemma gradient_descent_leaves_inputs_witness :
  let w' := snd (gradient_descent ref_X ref_y ref_theta (Real (1/10)) 3 2
                   ex_world) in
  contents ref_X w' = Some ex_X /\
  contents ref_y w' = Some ex_y /\
  contents ref_theta w' = Some ex_theta.
Proof.
  intros w'.
  destruct (gradient_descent_leaves_inputs ref_X ref_y ref_theta
              (Real (1/10)) 3 2 ex_world) as (_ & H & _).
  repeat split; apply H; reflexivity.
Defined.

(* ================================================================== *)
(** ** Further properties of the program *)

(** *** Figures *)

Lemma quiet_bind {A B} (c : M A) (k : A -> M B) :
  quiet c -> (forall a, quiet (k a)) -> quiet (x <- c ;; k x).
Proof.
  intros Hc Hk w. unfold bind. specialize (Hc w).
  destruct (c w) as [[a | e] w1]; simpl in *; [| exact Hc].
  rewrite (Hk a w1). exact Hc.
Qed.

Lemma quiet_ret {A} (a : A) : quiet (ret a).
Proof. intros w. reflexivity. Qed.

Lemma quiet_raise {A} (e : exn) : quiet (@raise A e).
Proof. intros w. reflexivity. Qed.

Lemma quiet_lift {A} (r : res A) : quiet (lift r).
Proof. intros w. reflexivity. Qed.

Lemma quiet_read (a : array) : quiet (read a).
Proof. intros w. unfold read. destruct (contents a w); reflexivity. Qed.

Lemma quiet_alloc (A : matrix) : quiet (alloc A).
Proof. intros w. reflexivity. Qed.

Lemma quiet_write (a : array) (i j : nat) (x : npfloat) : quiet (write a i j x).
Proof. intros w. unfold write. destruct (heap w !! buf a); reflexivity. Qed.

Ltac quiet_steps :=
  repeat first
    [ apply quiet_ret | apply quiet_raise | apply quiet_lift
    | apply quiet_read | apply quiet_alloc | apply quiet_write
    | apply quiet_bind; [| intros ?] ].

Lemma quiet_np_matmul (a b : array) : quiet (np_matmul a b).
Proof. unfold np_matmul. quiet_steps. Qed.

Lemma quiet_np_subtract (a b : array) : quiet (np_subtract a b).
Proof. unfold np_subtract. quiet_steps. Qed.

Lemma quiet_np_transpose (a : array) : quiet (np_transpose a).
Proof. unfold np_transpose. quiet_steps. Qed.

Lemma quiet_np_square (a : array) : quiet (np_square a).
Proof. unfold np_square. quiet_steps. Qed.

Lemma quiet_float_mul (c : npfloat) (a : array) : quiet (float_mul c a).
Proof. unfold float_mul. quiet_steps. Qed.

Lemma quiet_py_sum (a : array) : quiet (py_sum a).
Proof. unfold py_sum. quiet_steps. Qed.

Lemma quiet_update_theta (X y theta : array) (alpha : npfloat) (m : Z) :
  quiet (update_theta X y theta alpha m).
Proof.
  unfold update_theta.
  repeat first
    [ apply quiet_np_matmul | apply quiet_np_subtract
    | apply quiet_np_transpose | apply quiet_float_mul | apply quiet_lift
    | apply quiet_bind; [| intros ?] ].
Qed.

Lemma quiet_cost_function (X y theta : array) (m : Z) :
  quiet (cost_function X y theta m).
Proof.
  unfold cost_function.
  repeat first
    [ apply quiet_np_matmul | apply quiet_np_subtract
    | apply quiet_np_square | apply quiet_py_sum | apply quiet_lift
    | apply quiet_ret
    | apply quiet_bind; [| intros ?] ].
Qed.

Lemma quiet_setitem (a : array) (i j : nat) (v : pyval) :
  quiet (setitem a i j v).
Proof.
  unfold setitem. apply quiet_bind; [apply quiet_read | intros A].
  destruct ((i <? nrows A)%nat && (j <? ncols A)%nat); quiet_steps.
Qed.

Lemma quiet_gd_body (X y : array) (alpha : npfloat) (m : Z) (j_vals : array)
    (i : nat) (theta : array) :
  quiet (gd_body X y alpha m j_vals i theta).
Proof.
  unfold gd_body.
  apply quiet_bind; [apply quiet_update_theta | intros th].
  apply quiet_bind; [apply quiet_cost_function | intros J].
  apply quiet_bind; [apply quiet_setitem | intros _]. apply quiet_ret.
Qed.

Lemma quiet_for_each {S} (l : list nat) (body : nat -> S -> M S) (s : S) :
  (forall i s', quiet (body i s')) -> quiet (for_each l body s).
Proof.
  intros Hb. revert s. induction l as [| i l IH]; intros s; simpl.
  - apply quiet_ret.
  - apply quiet_bind; [apply Hb | intros s'; apply IH].
Qed.

Lemma quiet_np_zeros (r : Z) (c : nat) : quiet (np_zeros r c).
Proof.
  unfold np_zeros. destruct (r <? 0)%Z; [apply quiet_raise | apply quiet_alloc].
Qed.

Lemma quiet_normalize (X : array) : quiet (normalize X).
Proof.
  unfold normalize, np_mean0, np_std0, np_subtract_vec, np_divide_vec.
  quiet_steps.
Qed.

(** X9.  gradient_descent shows one figure, and only at its end: a call
    that returns has added exactly one figure to those shown before, the
    array that the cost array j_vals (the first object the call allocates)
    then holds; a call that raises has shown nothing. *)
Theorem gradient_descent_plots_once_at_the_end
    (X y theta : array) (alpha : npfloat) (num_iters m : Z) (w : world) :
  let out := gradient_descent X y theta alpha num_iters m w in
  match fst out with
  | Ok _ =>
      exists hist,
        figures (snd out) = figures w ++ [hist] /\
        contents (fresh w) (snd out) = Some hist
  | Raise _ => figures (snd out) = figures w
  end.
Proof.
  unfold gradient_descent, bind.
  pose proof (quiet_np_zeros num_iters 1 w) as Hz.
  destruct (np_zeros num_iters 1 w) as [[j | e] w1] eqn:Ez; simpl in Hz;
    [| exact Hz].
  assert (Hj : j = fresh w).
  { unfold np_zeros in Ez. destruct (num_iters <? 0)%Z; [discriminate |].
    unfold alloc in Ez. injection Ez as <- _. reflexivity. }
  pose proof (quiet_for_each (range num_iters) (gd_body X y alpha m j) theta
                (quiet_gd_body X y alpha m j) w1) as Hl.
  destruct (for_each (range num_iters) (gd_body X y alpha m j) theta w1)
    as [[th | e] w2]; simpl in Hl; [| simpl; congruence].
  unfold plot_cost. subst j.
  destruct (contents (fresh w) w2) as [hist |] eqn:Ec; simpl.
  - exists hist. split; [congruence | exact Ec].
  - congruence.
Qed.

(** *** cost_function *)

(** X8.  cost_function reads its arguments and nothing else: whatever the
    arguments and the outcome, the arrays of the store are as they were
    (the call only adds its intermediate arrays) and no figure is shown. *)
Theorem cost_function_is_read_only
    (X y theta : array) (m : Z) (w : world) :
  let out := cost_function X y theta m w in
  heap w `prefix_of` heap (snd out) /\
  figures (snd out) = figures w.
Proof.
  split.
  - apply (preserves_cost_function (heap w) X y theta m w). reflexivity.
  - apply quiet_cost_function.
Qed.

Lemma raises_lift {A} (r : res A) (e : exn) w :
  r = Raise e -> raises (lift r) w e w.
Proof. intros ->. reflexivity. Qed.

Lemma raises_np_matmul (a b : array) (A B : matrix) w :
  contents a w = Some A -> contents b w = Some B -> ncols A <> nrows B ->
  raises (np_matmul a b) w ValueError w.
Proof.
  intros Ha Hb Hs. unfold np_matmul.
  eapply raises_bind; [apply runs_read, Ha |].
  eapply raises_bind; [apply runs_read, Hb |].
  apply raises_bind_l, raises_lift. unfold matmul.
  destruct (Nat.eqb_spec (ncols A) (nrows B)); [contradiction | reflexivity].
Qed.

(** X6.  With m = 0 and arrays of conforming shapes, cost_function raises
    ZeroDivisionError at 1 / (2 * m), once the predictions, the residual
    and its square have been computed and allocated. *)
Theorem cost_function_zero_m
    (X y theta : array) (AX Ay Ath : matrix) (w : world) :
  contents X w = Some AX -> contents y w = Some Ay ->
  contents theta w = Some Ath ->
  ncols AX = nrows Ath -> nrows Ay = nrows AX -> ncols Ay = ncols Ath ->
  let r := msub (mmul AX Ath) Ay in
  raises (cost_function X y theta 0) w ZeroDivisionError
         (push (mmap fsquare r) (push r (push (mmul AX Ath) w))).
Proof.
  intros HX Hy Hth S1 S2 S3 r. unfold cost_function.
  eapply raises_bind; [apply runs_np_matmul; eassumption |].
  eapply raises_bind.
  { apply (runs_np_subtract _ _ (mmul AX Ath) Ay); simpl; auto with store. }
  eapply raises_bind.
  { apply (runs_np_square _ r), contents_fresh. }
  apply raises_bind_l. reflexivity.
Qed.

Lemma cost_function_zero_m_witness :
  exists w',
    raises (cost_function ref_X ref_y ref_theta 0) ex_world
           ZeroDivisionError w' /\
    length (heap w') = 6%nat.
Proof.
  eexists. split.
  - apply (cost_function_zero_m ref_X ref_y ref_theta ex_X ex_y ex_theta
             ex_world); reflexivity.
  - reflexivity.
Defined.

(** X7.  When theta has not as many rows as X has columns, cost_function
    raises ValueError at X @ theta, before anything is allocated: the
    store is left as it was. *)
Theorem cost_function_shape_mismatch
    (X y theta : array) (AX Ath : matrix) (m : Z) (w : world) :
  contents X w = Some AX -> contents theta w = Some Ath ->
  ncols AX <> nrows Ath ->
  raises (cost_function X y theta m) w ValueError w.
Proof.
  intros HX Hth Hs. unfold cost_function.
  apply raises_bind_l. eapply raises_np_matmul; eassumption.
Qed.

Lemma cost_function_shape_mismatch_witness :
  raises (cost_function ref_X ref_y ref_theta 2) ex_bad_world
         ValueError ex_bad_world.
Proof.
  apply (cost_function_shape_mismatch ref_X ref_y ref_theta
           ex_X ex_short_theta 2 ex_bad_world); [reflexivity .. |].
  simpl. lia.
Defined.

(** *** gradient_descent *)

(** X11.  When theta has not as many rows as X has columns and at least
    one iteration is asked for, gradient_descent raises ValueError at the
    first X @ theta: theta has not been updated, the store has only gained
    the cost array, still all zeros, and no figure is shown. *)
Theorem gradient_descent_shape_mismatch
    (X y theta : array) (AX Ath : matrix) (alpha : npfloat)
    (num_iters m : Z) (w : world) :
  contents X w = Some AX -> contents theta w = Some Ath ->
  ncols AX <> nrows Ath ->
  (1 <= num_iters)%Z ->
  raises (gradient_descent X y theta alpha num_iters m) w ValueError
         (push (tab (Z.to_nat num_iters) 1 (fun _ _ => Real 0)) w).
Proof.
  intros HX Hth Hs Hn. unfold gradient_descent.
  eapply raises_bind.
  { unfold np_zeros. destruct (Z.ltb_spec num_iters 0); [lia |].
    apply runs_alloc. }
  apply raises_bind_l. unfold range.
  destruct (Z.to_nat num_iters) as [| n] eqn:En; [lia |].
  simpl. apply raises_bind_l. unfold gd_body. apply raises_bind_l.
  unfold update_theta. apply raises_bind_l.
  eapply raises_np_matmul; eauto with store.
Qed.

Lemma gradient_descent_shape_mismatch_witness :
  exists w',
    raises (gradient_descent ref_X ref_y ref_theta (Real (1/10)) 5 2)
           ex_bad_world ValueError w' /\
    figures w' = [] /\ length (heap w') = 4%nat.
Proof.
  eexists. split.
  - apply (gradient_descent_shape_mismatch ref_X ref_y ref_theta
             ex_X ex_short_theta (Real (1/10)) 5 2 ex_bad_world);
      [reflexivity | reflexivity | simpl; lia | lia].
  - split; reflexivity.
Defined.

(** *** normalize *)

Lemma fresh_normalize h0 (X : array) :
  preserves h0 (normalize X) (fun r => (length h0 <= buf r)%nat).
Proof.
  unfold normalize.
  apply (preserves_bind h0 (np_mean0 X) _ (fun _ => True));
    [unfold np_mean0; preserves_steps | intros mu _].
  apply (preserves_bind h0 (np_std0 X) _ (fun _ => True));
    [unfold np_std0; preserves_steps | intros sigma _].
  apply (preserves_bind h0 (np_subtract_vec X mu) _ (fun _ => True));
    [unfold np_subtract_vec; preserves_steps | intros t _].
  unfold np_divide_vec.
  eapply preserves_bind; [apply preserves_read | intros A _].
  eapply preserves_bind; [apply preserves_lift | intros C _].
  apply preserves_alloc.
Qed.

(** X3.  normalize never raises and has no effect on what exists: for
    every 2-D array X (empty, or with constant columns, or with entries
    that are not finite) it returns a new object holding an array of the
    shape of X, and X and the other arrays of the store are as they were;
    no figure is shown. *)
Theorem normalize_returns_new_array_of_same_shape
    (X : array) (A : matrix) (w : world) :
  contents X w = Some A ->
  exists r w' Z,
    runs (normalize X) w r w' /\
    contents r w' = Some Z /\
    shape Z = shape A /\
    (length (heap w) <= buf r)%nat /\
    heap w `prefix_of` heap w' /\
    contents X w' = Some A /\
    figures w' = figures w.
Proof.
  intros HX.
  destruct (runs_normalize X A w HX) as (r & w' & Run & Hc & Hal).
  exists r, w', (normalize_value A).
  split; [exact Run |]. split; [exact Hc |]. split; [reflexivity |].
  split; [| split; [apply Hal | split; [| apply Hal]]].
  - pose proof (fresh_normalize (heap w) X w) as [_ H]; [reflexivity |].
    apply H. unfold runs in Run. rewrite Run. reflexivity.
  - eapply contents_allocates; eassumption.
Qed.

Lemma normalize_returns_new_array_of_same_shape_witness :
  exists r w' Z,
    runs (normalize (Array 0 false)) (World [ex_features] []) r w' /\
    contents r w' = Some Z /\
    shape Z = (2%nat, 2%nat) /\
    contents (Array 0 false) w' = Some ex_features.
Proof.
  destruct (normalize_returns_new_array_of_same_shape (Array 0 false)
              ex_features (World [ex_features] []))
    as (r & w' & Z & Run & Hc & Hs & _ & _ & HX & _); [reflexivity |].
  exists r, w', Z. auto.
Defined.

Lemma get_standardized (A : matrix) (i j : nat) :
  (i < nrows A)%nat -> (j < ncols A)%nat ->
  get (standardized A) i j = Real ((entry A i j - mean_R A j) / std_R A j).
Proof. intros Hi Hj. unfold standardized. apply get_tab; trivial. Qed.

(** Normalizing what normalize computed changes nothing. *)
Lemma normalize_value_idempotent (A : matrix) :
  finite_array A -> (1 <= nrows A)%nat ->
  (forall j, (j < ncols A)%nat -> std_R A j <> 0) ->
  normalize_value (normalize_value A) = normalize_value A.
Proof.
  intros Hfin Hr Hstd.
  rewrite (normalize_value_finite A Hfin Hr Hstd).
  assert (Hstd' : forall j, (j < ncols (standardized A))%nat ->
                            std_R (standardized A) j <> 0).
  { intros j Hj. simpl in Hj. rewrite std_R_standardized by auto. lra. }
  rewrite (normalize_value_finite _ (finite_standardized A) Hr Hstd').
  set (Z := standardized A).
  assert (HZ : Z = tab (nrows A) (ncols A) (fun i j => get Z i j)).
  { unfold Z at 1, standardized. apply tab_ext. intros i j Hi Hj.
    symmetry. apply get_standardized; trivial. }
  etransitivity; [| symmetry; exact HZ].
  unfold standardized at 1. change (nrows Z) with (nrows A).
  change (ncols Z) with (ncols A).
  apply tab_ext. intros i j Hi Hj. unfold Z.
  rewrite mean_R_standardized, std_R_standardized, entry_standardized,
    get_standardized by auto.
  f_equal. field. auto.
Qed.

(** X4.  normalize is idempotent: on an array of finite entries with at
    least one row and no column of standard deviation 0, normalizing the
    array that normalize returned gives the same array again. *)
Theorem normalize_is_idempotent (X : array) (A : matrix) (w : world) :
  contents X w = Some A ->
  finite_array A -> (1 <= nrows A)%nat ->
  (forall j, (j < ncols A)%nat -> std_R A j <> 0) ->
  exists r1 w1 r2 w2 Z,
    runs (normalize X) w r1 w1 /\
    runs (normalize r1) w1 r2 w2 /\
    contents r1 w1 = Some Z /\
    contents r2 w2 = Some Z.
Proof.
  intros HX Hfin Hr Hstd.
  destruct (runs_normalize X A w HX) as (r1 & w1 & Run1 & Hc1 & _).
  destruct (runs_normalize r1 _ w1 Hc1) as (r2 & w2 & Run2 & Hc2 & _).
  exists r1, w1, r2, w2, (normalize_value A).
  repeat split; trivial.
  rewrite Hc2, normalize_value_idempotent; trivial.
Qed.

Lemma normalize_is_idempotent_witness :
  exists r1 w1 r2 w2 Z,
    runs (normalize (Array 0 false)) (World [ex_varied] []) r1 w1 /\
    runs (normalize r1) w1 r2 w2 /\
    contents r1 w1 = Some Z /\
    contents r2 w2 = Some Z.
Proof.
  apply (normalize_is_idempotent (Array 0 false) ex_varied
           (World [ex_varied] [])).
  - reflexivity.
  - apply ex_varied_finite.
  - simpl. lia.
  - apply ex_varied_std.
Defined.

(** *** The cost over the reals *)

Lemma Rsum_zero (n : nat) (f : nat -> R) :
  (forall i, (i < n)%nat -> f i = 0) -> Rsum n f = 0.
Proof.
  induction n as [| n IH]; intros H; [reflexivity |].
  rewrite Rsum_S, IH, (H n) by (intros; auto with arith). lra.
Qed.

Lemma Rsum_nonneg_zero (n : nat) (f : nat -> R) :
  (forall i, 0 <= f i) -> Rsum n f = 0 ->
  forall i, (i < n)%nat -> f i = 0.
Proof.
  intros Hf. induction n as [| n IH]; intros H i Hi; [lia |].
  rewrite Rsum_S in H.
  pose proof (Rsum_nonneg n f Hf) as Hn. pose proof (Hf n) as Hfn.
  destruct (Nat.eq_dec i n) as [-> | Hne]; [lra |].
  apply IH; [lra | lia].
Qed.

(** The scalar recorded for a cost is the cost of the specification. *)
Lemma cost_scalar_mse (X y theta : matrix) (m : Z) :
  ncols theta = 1%nat -> m <> 0%Z ->
  cost_scalar X y theta m = mse_cost X y theta m.
Proof.
  intros Hc Hm. unfold cost_scalar, cost_value, mse_cost.
  rewrite sum_rows_col by (simpl; trivial). simpl nrows.
  rewrite fdiv_Real by (apply not_0_IZR; lia). rewrite mult_IZR.
  assert (E : fsum (nrows X)
                (fun i => get (mmap fsquare (msub (mmul X theta) y)) i 0) =
              fsum (nrows X)
                (fun i => fsquare (fsub (dot_row X theta i) (get y i 0)))).
  { apply fsum_ext. intros i Hi. unfold mmap, msub, mzip, mmul. tab_simpl.
    reflexivity. }
  destruct (nrows X) as [| r] eqn:Er.
  - reflexivity.
  - unfold py_mul, as_scalar. cbn [map]. rewrite E. reflexivity.
Qed.

Lemma mse_R_nonneg (X y theta : matrix) (m : Z) :
  (1 <= m)%Z -> 0 <= mse_R X y theta m.
Proof.
  intros Hm. unfold mse_R. apply Rmult_le_pos.
  - apply IZR_le in Hm. unfold Rdiv. rewrite Rmult_1_l.
    left. apply Rinv_0_lt_compat. lra.
  - apply Rsum_nonneg. intros i. cbv beta. apply Rle_0_sqr.
Qed.

Lemma mse_R_zero (X y theta : matrix) (m : Z) :
  (1 <= m)%Z ->
  (mse_R X y theta m = 0 <->
   forall i, (i < nrows X)%nat -> dot_R X theta i = entry y i 0).
Proof.
  intros Hm. unfold mse_R.
  assert (Hc : 0 < 1 / (2 * IZR m)).
  { apply IZR_le in Hm. unfold Rdiv. rewrite Rmult_1_l.
    apply Rinv_0_lt_compat. lra. }
  split.
  - intros H i Hi.
    assert (Hs : Rsum (nrows X)
                   (fun i => (dot_R X theta i - entry y i 0)
                             * (dot_R X theta i - entry y i 0)) = 0) by nra.
    pose proof (Rsum_nonneg_zero _ _ (fun i => Rle_0_sqr _) Hs i Hi) as Hz.
    cbv beta in Hz. apply Rmult_integral in Hz. destruct Hz; lra.
  - intros H. rewrite Rsum_zero; [lra |].
    intros i Hi. rewrite (H i Hi). lra.
Qed.

(** X5.  In exact arithmetic (no rounding, no overflow): on arrays of
    finite entries and conforming shapes, with at least one row and
    m >= 1, cost_function returns a single finite number that is never
    negative, and that is 0 exactly when X theta = y, row by row. *)
Theorem cost_function_nonnegative
    (X y theta : array) (AX Ay Ath : matrix) (m : Z) (w : world) :
  contents X w = Some AX -> contents y w = Some Ay ->
  contents theta w = Some Ath ->
  finite_array AX -> finite_array Ay -> finite_array Ath ->
  ncols AX = nrows Ath -> nrows Ay = nrows AX ->
  ncols Ay = 1%nat -> ncols Ath = 1%nat ->
  (1 <= nrows AX)%nat -> (1 <= m)%Z ->
  exists (c : R) w',
    runs (cost_function X y theta m) w (PyArr [Real c]) w' /\
    0 <= c /\
    (c = 0 <->
     forall i, (i < nrows AX)%nat -> dot_R AX Ath i = entry Ay i 0).
Proof.
  intros HX Hy Hth FX Fy Fth S1 S2 S3 S4 Hr Hm.
  destruct (runs_cost_function X y theta AX Ay Ath m w)
    as (w' & Run & _); try congruence; try lia.
  exists (mse_R AX Ay Ath m), w'. split; [| split].
  - replace (PyArr [Real (mse_R AX Ay Ath m)]) with (cost_value AX Ay Ath m);
      [exact Run |].
    pose proof (cost_scalar_mse AX Ay Ath m S4) as E.
    rewrite mse_cost_finite in E by (trivial; lia).
    unfold cost_scalar, cost_value in *.
    rewrite sum_rows_col in * by (simpl; congruence). simpl nrows in *.
    destruct (nrows AX) as [| r]; [lia |].
    unfold py_mul, as_scalar in *. cbn [map] in *. rewrite E by lia.
    reflexivity.
  - apply mse_R_nonneg, Hm.
  - apply mse_R_zero, Hm.
Qed.

Lemma cost_function_nonnegative_witness :
  exists (c : R) w',
    runs (cost_function ref_X ref_y ref_theta 2) ex_world (PyArr [Real c]) w' /\
    0 <= c.
Proof.
  destruct (cost_function_nonnegative ref_X ref_y ref_theta ex_X ex_y ex_theta
              2 ex_world) as (c & w' & Run & Hc & _);
    try reflexivity; try (simpl; lia);
    try (intros i j Hi Hj; simpl in Hi, Hj;
         destruct i as [| [| i]], j as [| [| j]]; simpl; trivial; lia).
  exists c, w'. auto.
Defined.

(** *** The update over the reals *)

Lemma dot_row_finite (X theta : matrix) (i : nat) :
  finite_array X -> finite_array theta ->
  ncols X = nrows theta -> (0 < ncols theta)%nat -> (i < nrows X)%nat ->
  dot_row X theta i = Real (dot_R X theta i).
Proof.
  intros FX Fth S1 Cth Hi. unfold dot_row, dot_R.
  apply fsum_Real. intros k Hk.
  rewrite (get_finite X), (get_finite theta) by (trivial; lia). reflexivity.
Qed.

(** On finite arrays an update step computes, over the reals,
    theta_j - c * grad_j. *)
Lemma get_update_value_finite (X y theta : matrix) (c : R) (j : nat) :
  finite_array X -> finite_array y -> finite_array theta ->
  ncols X = nrows theta -> nrows y = nrows X ->
  (0 < ncols y)%nat -> (0 < ncols theta)%nat -> (j < nrows theta)%nat ->
  get (update_value X y theta (Real c)) j 0 =
  Real (entry theta j 0 - c * grad_R X y theta j).
Proof.
  intros FX Fy Fth S1 S2 Cy Cth Hj.
  rewrite update_value_direct, get_direct_update by trivial.
  rewrite (fsum_Real _ _
             (fun i => entry X i j * (dot_R X theta i - entry y i 0))).
  - rewrite (get_finite theta) by trivial. reflexivity.
  - intros i Hi.
    rewrite (get_finite X), dot_row_finite, (get_finite y)
      by (trivial; lia).
    reflexivity.
Qed.

Lemma shape_update_value (X y theta : matrix) (c : npfloat) :
  shape (update_value X y theta c) = shape theta.
Proof. reflexivity. Qed.

Lemma same_entries_refl (A : matrix) : same_entries A A.
Proof. split; auto. Qed.

Lemma same_entries_finite (A B : matrix) :
  same_entries A B -> finite_array B -> finite_array A.
Proof.
  intros [Hs He] FB i j Hi Hj. unfold shape in Hs. injection Hs as Hr Hc.
  rewrite He by lia. apply FB; lia.
Qed.

Lemma same_entries_entry (A B : matrix) (i j : nat) :
  same_entries A B -> (i < nrows B)%nat -> (j < ncols B)%nat ->
  entry A i j = entry B i j.
Proof. intros [_ He] Hi Hj. unfold entry. rewrite He; trivial. Qed.

Lemma same_entries_dot_R (X theta theta' : matrix) (i : nat) :
  same_entries theta theta' -> ncols X = nrows theta' ->
  (0 < ncols theta')%nat ->
  dot_R X theta i = dot_R X theta' i.
Proof.
  intros H S1 Cth. unfold dot_R. apply Rsum_ext. intros k Hk.
  rewrite (same_entries_entry theta theta') by (trivial; lia). reflexivity.
Qed.

Lemma same_entries_grad_R (X y theta theta' : matrix) (j : nat) :
  same_entries theta theta' -> ncols X = nrows theta' ->
  (0 < ncols theta')%nat ->
  grad_R X y theta j = grad_R X y theta' j.
Proof.
  intros H S1 Cth. unfold grad_R. apply Rsum_ext. intros i Hi.
  rewrite (same_entries_dot_R X theta theta') by trivial. reflexivity.
Qed.

Lemma same_entries_mse_cost (X y theta theta' : matrix) (m : Z) :
  same_entries theta theta' -> ncols X = nrows theta' ->
  (0 < ncols theta')%nat ->
  mse_cost X y theta m = mse_cost X y theta' m.
Proof.
  intros [Hs He] S1 Cth. unfold mse_cost. f_equal.
  apply fsum_ext. intros i Hi. do 2 f_equal.
  unfold dot_row. apply fsum_ext. intros k Hk.
  rewrite He by lia. reflexivity.
Qed.

Section Stationary.

Variables (AX Ay Ath : matrix) (c : R).

Hypothesis FX : finite_array AX.
Hypothesis Fy : finite_array Ay.
Hypothesis Fth : finite_array Ath.
Hypothesis S1 : ncols AX = nrows Ath.
Hypothesis S2 : nrows Ay = nrows AX.
Hypothesis S3 : ncols Ay = 1%nat.
Hypothesis S4 : ncols Ath = 1%nat.

(** The step moves no parameter: c * grad_j = 0 for every j. *)
Hypothesis Hstill :
  forall j, (j < nrows Ath)%nat -> c * grad_R AX Ay Ath j = 0.

Lemma update_value_still (theta : matrix) :
  same_entries theta Ath ->
  same_entries (update_value AX Ay theta (Real c)) Ath.
Proof.
  intros H. pose proof H as [Hs He].
  pose proof (same_entries_finite _ _ H Fth) as Fth'.
  unfold shape in Hs. injection Hs as Hr Hc.
  split; [rewrite shape_update_value; unfold shape; congruence |].
  intros i j Hi Hj. replace j with 0%nat by lia.
  rewrite get_update_value_finite by (trivial; lia).
  rewrite (same_entries_grad_R AX Ay theta Ath), Hstill by (trivial; lia).
  rewrite (same_entries_entry theta Ath), (get_finite Ath) by (trivial; lia).
  f_equal. lra.
Qed.

Lemma theta_after_still (k : nat) :
  same_entries (theta_after AX Ay Ath (Real c) k) Ath.
Proof.
  induction k as [| k IH]; simpl.
  - apply same_entries_refl.
  - apply update_value_still, IH.
Qed.

End Stationary.

Lemma grad_R_exact_fit (X y theta : matrix) (j : nat) :
  (forall i, (i < nrows X)%nat -> dot_R X theta i = entry y i 0) ->
  grad_R X y theta j = 0.
Proof.
  intros H. unfold grad_R. apply Rsum_zero. intros i Hi.
  rewrite (H i Hi). lra.
Qed.

(** X10.  In exact arithmetic (no rounding, no overflow), at an exact fit
    gradient descent stays where it is: on finite arrays of conforming
    shapes with X theta = y row by row, a finite alpha and m <> 0, a call
    of any number of iterations returns an array with the shape and the
    entries of the initial theta, and every cost it records is 0. *)
Theorem gradient_descent_stationary_at_exact_fit
    (X y theta : array) (AX Ay Ath : matrix) (a : R) (num_iters m : Z)
    (w : world) :
  contents X w = Some AX -> contents y w = Some Ay ->
  contents theta w = Some Ath ->
  finite_array AX -> finite_array Ay -> finite_array Ath ->
  ncols AX = nrows Ath -> nrows Ay = nrows AX ->
  ncols Ay = 1%nat -> ncols Ath = 1%nat ->
  (forall i, (i < nrows AX)%nat -> dot_R AX Ath i = entry Ay i 0) ->
  m <> 0%Z -> (0 <= num_iters)%Z ->
  exists th' w' Z hist,
    runs (gradient_descent X y theta (Real a) num_iters m) w th' w' /\
    contents th' w' = Some Z /\
    same_entries Z Ath /\
    figures w' = figures w ++ [hist] /\
    shape hist = (Z.to_nat num_iters, 1%nat) /\
    forall i, (i < Z.to_nat num_iters)%nat -> get hist i 0 = Real 0.
Proof.
  intros HX Hy Hth FX Fy Fth S1 S2 S3 S4 Hfit Hm Hn.
  destruct (runs_gradient_descent X y AX Ay Ath (Real a) m w HX Hy S1 S2 S3 S4
              Hm theta num_iters Hth Hn)
    as (th' & w' & Run & Hc & _ & _ & Hfig).
  rewrite fdiv_Real in Hc, Hfig by (apply not_0_IZR, Hm).
  set (c := a / IZR m) in *.
  assert (Hstill : forall j, (j < nrows Ath)%nat ->
                             c * grad_R AX Ay Ath j = 0).
  { intros j Hj. rewrite grad_R_exact_fit by trivial. lra. }
  pose proof (theta_after_still AX Ay Ath c FX Fy Fth S1 S2 S3 S4 Hstill)
    as Hsame.
  eexists th', w', _, _. split; [exact Run |]. split; [exact Hc |].
  split; [apply Hsame |]. split; [exact Hfig |]. split; [reflexivity |].
  intros i Hi. unfold history. rewrite get_tab by lia.
  destruct (Nat.ltb_spec i (Z.to_nat num_iters)); [| lia].
  specialize (Hsame (S i)).
  destruct (shape_theta_after AX Ay Ath (Real c) (S i)) as [Hr Hcol].
  rewrite cost_scalar_mse by (trivial; congruence).
  rewrite (same_entries_mse_cost AX Ay _ Ath) by (trivial; lia).
  rewrite mse_cost_finite by (trivial; lia).
  f_equal. unfold mse_R. rewrite Rsum_zero; [lra |].
  intros k Hk. rewrite (Hfit k Hk). lra.
Qed.

Lemma ex_finite_X : finite_array ex_X.
Proof.
  intros i j Hi Hj. simpl in Hi, Hj.
  destruct i as [| [| i]], j as [| [| j]]; simpl; trivial; lia.
Qed.

Lemma ex_finite_y : finite_array ex_y.
Proof.
  intros i j Hi Hj. simpl in Hi, Hj.
  destruct i as [| [| i]], j as [| j]; simpl; trivial; lia.
Qed.

Lemma ex_finite_theta : finite_array ex_theta.
Proof.
  intros i j Hi Hj. simpl in Hi, Hj.
  destruct i as [| [| i]], j as [| j]; simpl; trivial; lia.
Qed.

Lemma ex_exact_fit (i : nat) :
  (i < nrows ex_X)%nat -> dot_R ex_X ex_theta i = entry ex_y i 0.
Proof.
  intros Hi. simpl in Hi.
  destruct i as [| [| i]]; [| | lia];
    cbv [dot_R Rsum entry to_R get nth seq fold_left nrows ncols rows
         ex_X ex_y ex_theta]; lra.
Qed.

Lemma gradient_descent_stationary_at_exact_fit_witness :
  exists th' w' Z hist,
    runs (gradient_descent ref_X ref_y ref_theta (Real (1/10)) 4 2)
         ex_world th' w' /\
    contents th' w' = Some Z /\
    same_entries Z ex_theta /\
    figures w' = [hist] /\
    get hist 3 0 = Real 0.
Proof.
  destruct (gradient_descent_stationary_at_exact_fit ref_X ref_y ref_theta
              ex_X ex_y ex_theta (1/10) 4 2 ex_world)
    as (th' & w' & Z & hist & Run & Hc & Hs & Hf & _ & Hz);
    try reflexivity; try lia.
  - apply ex_finite_X.
  - apply ex_finite_y.
  - apply ex_finite_theta.
  - apply ex_exact_fit.
  - exists th', w', Z, hist. repeat split; trivial; try apply Hs.
    apply Hz. simpl. lia.
Defined.

(** X13.  In exact arithmetic (no rounding, no overflow), with a learning
    rate of 0 nothing is learnt: on finite arrays of conforming shapes and
    m <> 0, a call with alpha = 0 returns an array with the shape and the
    entries of the initial theta, and every cost it records is the cost of
    the initial theta. *)
Theorem gradient_descent_zero_learning_rate
    (X y theta : array) (AX Ay Ath : matrix) (num_iters m : Z) (w : world) :
  contents X w = Some AX -> contents y w = Some Ay ->
  contents theta w = Some Ath ->
  finite_array AX -> finite_array Ay -> finite_array Ath ->
  ncols AX = nrows Ath -> nrows Ay = nrows AX ->
  ncols Ay = 1%nat -> ncols Ath = 1%nat ->
  m <> 0%Z -> (0 <= num_iters)%Z ->
  exists th' w' Z hist,
    runs (gradient_descent X y theta (Real 0) num_iters m) w th' w' /\
    contents th' w' = Some Z /\
    same_entries Z Ath /\
    figures w' = figures w ++ [hist] /\
    forall i, (i < Z.to_nat num_iters)%nat ->
      get hist i 0 = mse_cost AX Ay Ath m.
Proof.
  intros HX Hy Hth FX Fy Fth S1 S2 S3 S4 Hm Hn.
  destruct (runs_gradient_descent X y AX Ay Ath (Real 0) m w HX Hy S1 S2 S3 S4
              Hm theta num_iters Hth Hn)
    as (th' & w' & Run & Hc & _ & _ & Hfig).
  rewrite fdiv_Real in Hc, Hfig by (apply not_0_IZR, Hm).
  set (c := 0 / IZR m) in *.
  assert (Hstill : forall j, (j < nrows Ath)%nat ->
                             c * grad_R AX Ay Ath j = 0).
  { intros j Hj. unfold c, Rdiv. ring. }
  pose proof (theta_after_still AX Ay Ath c FX Fy Fth S1 S2 S3 S4 Hstill)
    as Hsame.
  eexists th', w', _, _. split; [exact Run |]. split; [exact Hc |].
  split; [apply Hsame |]. split; [exact Hfig |].
  intros i Hi. unfold history. rewrite get_tab by lia.
  destruct (Nat.ltb_spec i (Z.to_nat num_iters)); [| lia].
  specialize (Hsame (S i)).
  destruct (shape_theta_after AX Ay Ath (Real c) (S i)) as [Hr Hcol].
  rewrite cost_scalar_mse by (trivial; congruence).
  apply same_entries_mse_cost; trivial; lia.
Qed.

Lemma gradient_descent_zero_learning_rate_witness :
  exists th' w' Z,
    runs (gradient_descent ref_X ref_y ref_theta (Real 0) 3 2)
         ex_world th' w' /\
    contents th' w' = Some Z /\
    same_entries Z ex_theta.
Proof.
  destruct (gradient_descent_zero_learning_rate ref_X ref_y ref_theta
              ex_X ex_y ex_theta 3 2 ex_world)
    as (th' & w' & Z & hist & Run & Hc & Hs & _);
    try reflexivity; try lia.
  - apply ex_finite_X.
  - apply ex_finite_y.
  - apply ex_finite_theta.
  - exists th', w', Z. auto.
Defined.

Lemma theta_after_add (X y theta : matrix) (c : npfloat) (a b : nat) :
  theta_after X y theta c (a + b) =
  theta_after X y (theta_after X y theta c a) c b.
Proof.
  induction b as [| b IH]; simpl.
  - rewrite Nat.add_0_r. reflexivity.
  - rewrite Nat.add_succ_r. simpl. rewrite IH. reflexivity.
Qed.

(** X12.  A run can be resumed: on arrays of conforming shapes with
    m <> 0, calling gradient_descent for n1 iterations and then, on the
    theta it returned, for n2 more, ends with the same parameters as one
    call of n1 + n2 iterations. *)
Theorem gradient_descent_resumes
    (X y theta : array) (AX Ay Ath : matrix) (alpha : npfloat)
    (n1 n2 m : Z) (w : world) :
  contents X w = Some AX -> contents y w = Some Ay ->
  contents theta w = Some Ath ->
  ncols AX = nrows Ath -> nrows Ay = nrows AX ->
  ncols Ay = 1%nat -> ncols Ath = 1%nat ->
  m <> 0%Z -> (0 <= n1)%Z -> (0 <= n2)%Z ->
  exists th1 w1 th2 w2 th12 w12 Z,
    runs (gradient_descent X y theta alpha n1 m) w th1 w1 /\
    runs (gradient_descent X y th1 alpha n2 m) w1 th2 w2 /\
    runs (gradient_descent X y theta alpha (n1 + n2) m) w th12 w12 /\
    contents th2 w2 = Some Z /\
    contents th12 w12 = Some Z.
Proof.
  intros HX Hy Hth S1 S2 S3 S4 Hm H1 H2.
  set (c := fdiv alpha (Real (IZR m))).
  destruct (runs_gradient_descent X y AX Ay Ath alpha m w HX Hy S1 S2 S3 S4
              Hm theta n1 Hth H1)
    as (th1 & w1 & Run1 & Hc1 & Hp1 & _).
  fold c in Hc1.
  destruct (shape_theta_after AX Ay Ath c (Z.to_nat n1)) as [Hr Hcol].
  destruct (runs_gradient_descent X y AX Ay
              (theta_after AX Ay Ath c (Z.to_nat n1)) alpha m w1)
    with (theta := th1) (num_iters := n2)
    as (th2 & w2 & Run2 & Hc2 & _); trivial; try congruence;
    try (eapply contents_prefix; eassumption).
  destruct (runs_gradient_descent X y AX Ay Ath alpha m w HX Hy S1 S2 S3 S4
              Hm theta (n1 + n2)%Z Hth)
    as (th12 & w12 & Run12 & Hc12 & _); [lia |].
  fold c in Hc2, Hc12.
  exists th1, w1, th2, w2, th12, w12, (theta_after AX Ay Ath c (Z.to_nat (n1 + n2))).
  repeat split; trivial.
  rewrite Hc2, Z2Nat.inj_add, theta_after_add by lia. reflexivity.
Qed.

Lemma gradient_descent_resumes_witness :
  exists th1 w1 th2 w2 th12 w12 Z,
    runs (gradient_descent ref_X ref_y ref_theta (Real (1/10)) 2 2)
         ex_world th1 w1 /\
    runs (gradient_descent ref_X ref_y th1 (Real (1/10)) 3 2) w1 th2 w2 /\
    runs (gradient_descent ref_X ref_y ref_theta (Real (1/10)) (2 + 3) 2)
         ex_world th12 w12 /\
    contents th2 w2 = Some Z /\
    contents th12 w12 = Some Z.
Proof.
  apply (gradient_descent_resumes ref_X ref_y ref_theta ex_X ex_y ex_theta
           (Real (1/10)) 2 3 2 ex_world); first [reflexivity | lia].
Defined.

(** *** load_data *)

Lemma quiet_load_data (data : matrix) : quiet (load_data data).
Proof.
  unfold load_data.
  apply quiet_bind; [apply quiet_alloc | intros X].
  apply quiet_bind.
  { apply quiet_bind; [apply quiet_read | intros S].
    destruct (1 <? ncols S)%nat; [apply quiet_normalize | apply quiet_ret]. }
  intros X'.
  apply quiet_bind; [apply quiet_alloc | intros ones].
  apply quiet_bind.
  { unfold np_append1.
    apply quiet_bind; [apply quiet_read | intros A].
    apply quiet_bind; [apply quiet_read | intros B].
    destruct (nrows A =? nrows B)%nat; [apply quiet_alloc | apply quiet_raise]. }
  intros X''.
  apply quiet_bind.
  { destruct (ncols data =? 0)%nat; [apply quiet_raise | apply quiet_alloc]. }
  intros y.
  apply quiet_bind; [apply quiet_read | intros S].
  apply quiet_bind; [apply quiet_np_zeros | intros theta].
  apply quiet_ret.
Qed.

(** X1.  From a frame of m rows and at least one column, load_data
    returns m, n = the number of columns of the frame, a design matrix X
    of shape (m, n) whose column 0 is all ones, the labels y of shape
    (m, 1) holding the last column of the frame, and a theta of shape
    (n, 1) that is all zeros; the arrays that existed are untouched and no
    figure is shown. *)
Theorem load_data_outputs (data : matrix) (w : world) :
  (1 <= ncols data)%nat ->
  let m := nrows data in
  let n := ncols data in
  exists X y theta w' AX Ay Ath,
    runs (load_data data) w (X, y, theta, Z.of_nat m, Z.of_nat n) w' /\
    contents X w' = Some AX /\
    contents y w' = Some Ay /\
    contents theta w' = Some Ath /\
    shape AX = (m, n) /\
    (forall i, (i < m)%nat -> get AX i 0 = Real 1) /\
    shape Ay = (m, 1%nat) /\
    (forall i, (i < m)%nat -> get Ay i 0 = get data i (n - 1)) /\
    shape Ath = (n, 1%nat) /\
    (forall j, (j < n)%nat -> get Ath j 0 = Real 0) /\
    heap w `prefix_of` heap w' /\
    figures w' = figures w.
Proof.
  intros Hk m n.
  destruct (runs_load_data data w Hk)
    as (X & y & theta & w' & Run & HX & Hy & Hth & Hal).
  assert (En : S (ncols data - 1) = n) by (unfold n; lia).
  rewrite En in Run, Hth.
  eexists X, y, theta, w', _, _, _.
  split; [exact Run |]. split; [exact HX |]. split; [exact Hy |].
  split; [exact Hth |].
  split.
  { unfold shape, with_bias. simpl.
    destruct (1 <? ncols data - 1)%nat; simpl; f_equal; lia. }
  split.
  { intros i Hi. unfold with_bias.
    rewrite get_tab; [reflexivity | | lia].
    destruct (1 <? ncols data - 1)%nat; simpl; exact Hi. }
  split; [reflexivity |].
  split; [intros i Hi; rewrite get_tab by (fold m; lia); reflexivity |].
  split; [reflexivity |].
  split; [intros j Hj; rewrite get_tab by lia; reflexivity |].
  split; [apply Hal |].
  pose proof (quiet_load_data data w) as Hq.
  unfold runs in Run. rewrite Run in Hq. exact Hq.
Qed.

Lemma load_data_outputs_witness :
  exists X y theta w' AX Ay Ath,
    runs (load_data ex_frame) empty_world (X, y, theta, 2%Z, 3%Z) w' /\
    contents X w' = Some AX /\
    contents y w' = Some Ay /\
    contents theta w' = Some Ath /\
    shape AX = (2%nat, 3%nat) /\ shape Ay = (2%nat, 1%nat) /\
    shape Ath = (3%nat, 1%nat).
Proof.
  destruct (load_data_outputs ex_frame empty_world)
    as (X & y & theta & w' & AX & Ay & Ath & Run & HX & Hy & Hth & SX & _
        & Sy & _ & St & _); [simpl; lia |].
  exists X, y, theta, w', AX, Ay, Ath. repeat split; trivial.
Defined.

(** X2.  What load_data returns can be handed to gradient_descent as it
    is: from a frame with at least one row and one column, for every
    alpha and every num_iters >= 0, gradient_descent on the X, y, theta
    and m of load_data raises nothing, returns parameters of shape (n, 1)
    and shows the num_iters costs. *)
Theorem load_data_then_gradient_descent
    (data : matrix) (alpha : npfloat) (num_iters : Z) (w : world) :
  (1 <= nrows data)%nat -> (1 <= ncols data)%nat -> (0 <= num_iters)%Z ->
  exists X y theta m n w1 th' w2 Ath' hist,
    runs (load_data data) w (X, y, theta, m, n) w1 /\
    runs (gradient_descent X y theta alpha num_iters m) w1 th' w2 /\
    contents th' w2 = Some Ath' /\
    shape Ath' = (ncols data, 1%nat) /\
    figures w2 = figures w ++ [hist] /\
    shape hist = (Z.to_nat num_iters, 1%nat).
Proof.
  intros Hr Hk Hn.
  destruct (runs_load_data data w Hk)
    as (X & y & theta & w1 & Run1 & HX & Hy & Hth & Hal).
  set (G := if (1 <? ncols data - 1)%nat
            then normalize_value (tab (nrows data) (ncols data - 1) (get data))
            else tab (nrows data) (ncols data - 1) (get data)) in *.
  assert (HrG : nrows G = nrows data)
    by (unfold G; destruct (1 <? ncols data - 1)%nat; reflexivity).
  assert (HcG : ncols G = (ncols data - 1)%nat)
    by (unfold G; destruct (1 <? ncols data - 1)%nat; reflexivity).
  set (Ay := tab (nrows data) 1 (fun i _ => get data i (ncols data - 1))) in *.
  set (Ath := tab (S (ncols data - 1)) 1 (fun _ _ => Real 0)) in *.
  assert (S1 : ncols (with_bias G) = nrows Ath) by (simpl; lia).
  assert (S2 : nrows Ay = nrows (with_bias G)) by (simpl; lia).
  assert (Hm : Z.of_nat (nrows data) <> 0%Z) by lia.
  destruct (runs_gradient_descent X y (with_bias G) Ay Ath alpha
              (Z.of_nat (nrows data)) w1 HX Hy S1 S2 eq_refl eq_refl Hm
              theta num_iters Hth Hn)
    as (th' & w2 & Run2 & Hc & _ & _ & Hfig).
  eexists X, y, theta, _, _, w1, th', w2, _, _.
  split; [exact Run1 |]. split; [exact Run2 |]. split; [exact Hc |].
  split; [| split].
  - unfold shape.
    match goal with
    | |- (nrows (theta_after ?A ?B ?T ?c ?k), _) = _ =>
        destruct (shape_theta_after A B T c k) as [-> ->]
    end.
    simpl. f_equal. lia.
  - rewrite Hfig. destruct Hal as [_ ->]. reflexivity.
  - reflexivity.
Qed.

Lemma load_data_then_gradient_descent_witness :
  exists X y theta m n w1 th' w2,
    runs (load_data ex_frame) empty_world (X, y, theta, m, n) w1 /\
    runs (gradient_descent X y theta (Real (1/10)) 10 m) w1 th' w2.
Proof.
  destruct (load_data_then_gradient_descent ex_frame (Real (1/10)) 10
              empty_world)
    as (X & y & theta & m & n & w1 & th' & w2 & Ath' & hist & Run1 & Run2 & _);
    [simpl; lia | simpl; lia | lia |].
  exists X, y, theta, m, n, w1, th', w2. auto.
Defined.

(** *** normalize and shifts *)

Lemma Rsum_plus (n : nat) (f : nat -> R) (b : R) :
  Rsum n (fun i => f i + b) = Rsum n f + INR n * b.
Proof.
  induction n as [| n IH]; [unfold Rsum; simpl; lra |].
  rewrite !Rsum_S, IH, S_INR. lra.
Qed.

Section Shift.

Variables (A B : matrix) (b : nat -> R).

Hypothesis FA : finite_array A.
Hypothesis FB : finite_array B.
Hypothesis Hshape : shape B = shape A.
Hypothesis Hrows : (1 <= nrows A)%nat.
Hypothesis Hshift :
  forall i j, (i < nrows A)%nat -> (j < ncols A)%nat ->
    entry B i j = entry A i j + b j.

Lemma shift_rows : nrows B = nrows A.
Proof. unfold shape in Hshape. congruence. Qed.

Lemma shift_cols : ncols B = ncols A.
Proof. unfold shape in Hshape. congruence. Qed.

Lemma shift_mean (j : nat) :
  (j < ncols A)%nat -> mean_R B j = mean_R A j + b j.
Proof.
  intros Hj. unfold mean_R. rewrite shift_rows.
  rewrite (Rsum_ext _ _ (fun i => entry A i j + b j))
    by (intros; apply Hshift; trivial).
  rewrite Rsum_plus. field. apply not_0_INR. lia.
Qed.

Lemma shift_deviation (i j : nat) :
  (i < nrows A)%nat -> (j < ncols A)%nat ->
  fsub (get B i j) (col_mean B j) = fsub (get A i j) (col_mean A j).
Proof.
  intros Hi Hj.
  rewrite (get_finite B), (get_finite A), !col_mean_finite
    by (trivial; rewrite ?shift_rows, ?shift_cols; trivial).
  simpl. f_equal. rewrite shift_mean, Hshift by trivial. lra.
Qed.

Lemma shift_std (j : nat) : (j < ncols A)%nat -> col_std B j = col_std A j.
Proof.
  intros Hj. unfold col_std, col_var. rewrite shift_rows. do 2 f_equal.
  apply fsum_ext. intros i Hi. rewrite shift_deviation by trivial.
  reflexivity.
Qed.

Lemma shift_normalize_value : normalize_value B = normalize_value A.
Proof.
  unfold normalize_value. rewrite shift_rows, shift_cols.
  apply tab_ext. intros i j Hi Hj.
  rewrite shift_deviation, shift_std by trivial. reflexivity.
Qed.

End Shift.

(** X14.  normalize does not see an offset: for two arrays of finite
    entries and one shape, with at least one row, the second being the
    first with a constant b_j added to each column j, normalize returns
    the same array for both (a column of standard deviation 0 included). *)
Theorem normalize_ignores_column_offsets
    (X X' : array) (A B : matrix) (b : nat -> R) (w : world) :
  contents X w = Some A -> contents X' w = Some B ->
  finite_array A -> finite_array B ->
  shape B = shape A -> (1 <= nrows A)%nat ->
  (forall i j, (i < nrows A)%nat -> (j < ncols A)%nat ->
     entry B i j = entry A i j + b j) ->
  exists r w1 r' w2 Z,
    runs (normalize X) w r w1 /\
    runs (normalize X') w1 r' w2 /\
    contents r w2 = Some Z /\
    contents r' w2 = Some Z.
Proof.
  intros HX HX' FA FB Hs Hr Hb.
  destruct (runs_normalize X A w HX) as (r & w1 & Run1 & Hc1 & Hal1).
  destruct (runs_normalize X' B w1 (contents_allocates _ _ _ _ Hal1 HX'))
    as (r' & w2 & Run2 & Hc2 & Hal2).
  exists r, w1, r', w2, (normalize_value A).
  split; [exact Run1 |]. split; [exact Run2 |]. split.
  - eapply contents_allocates; eassumption.
  - rewrite Hc2. f_equal. apply (shift_normalize_value A B b); trivial.
Qed.

Lemma ex_features_finite : finite_array ex_features.
Proof.
  intros i j Hi Hj. simpl in Hi, Hj.
  destruct i as [| [| i]], j as [| [| j]]; simpl; trivial; lia.
Qed.

Lemma ex_shifted_finite : finite_array ex_shifted.
Proof.
  intros i j Hi Hj. simpl in Hi, Hj.
  destruct i as [| [| i]], j as [| [| j]]; simpl; trivial; lia.
Qed.

Lemma normalize_ignores_column_offsets_witness :
  exists r w1 r' w2 Z,
    runs (normalize (Array 0 false)) (World [ex_features; ex_shifted] [])
         r w1 /\
    runs (normalize (Array 1 false)) w1 r' w2 /\
    contents r w2 = Some Z /\
    contents r' w2 = Some Z.
Proof.
  apply (normalize_ignores_column_offsets (Array 0 false) (Array 1 false)
           ex_features ex_shifted
           (fun j => match j with O => 10 | _ => 20 end)).
  - reflexivity.
  - reflexivity.
  - apply ex_features_finite.
  - apply ex_shifted_finite.
  - reflexivity.
  - simpl. lia.
  - intros i j Hi Hj. simpl in Hi, Hj.
    destruct i as [| [| i]], j as [| [| j]]; try lia;
      cbv [entry to_R get nth rows ex_features ex_shifted]; lra.
Defined.

(** *** The cost and the order of the examples *)

Lemma Rsum_fold (n : nat) (f : nat -> R) :
  Rsum n f = fold_left Rplus (map f (seq 0 n)) 0.
Proof.
  unfold Rsum. generalize 0. generalize (seq 0 n).
  induction l as [| i l IH]; intros a; simpl; trivial.
Qed.

Lemma fold_left_Rplus_perm (l l' : list R) :
  Permutation l l' ->
  forall a, fold_left Rplus l a = fold_left Rplus l' a.
Proof.
  induction 1 as [| x l l' _ IH | x x' l | l l' l'' _ IH1 _ IH2];
    intros a; simpl.
  - reflexivity.
  - apply IH.
  - f_equal. lra.
  - rewrite IH1. apply IH2.
Qed.

(** A sum over the reals does not depend on the order of its terms. *)
Lemma Rsum_perm (n : nat) (f : nat -> R) (sigma : nat -> nat) :
  Permutation (map sigma (seq 0 n)) (seq 0 n) ->
  Rsum n (fun i => f (sigma i)) = Rsum n f.
Proof.
  intros H. rewrite !Rsum_fold.
  rewrite <- (map_map sigma f).
  apply fold_left_Rplus_perm, Permutation_map, H.
Qed.

Lemma perm_in_range (n : nat) (sigma : nat -> nat) (i : nat) :
  Permutation (map sigma (seq 0 n)) (seq 0 n) ->
  (i < n)%nat -> (sigma i < n)%nat.
Proof.
  intros H Hi.
  assert (Hin : In (sigma i) (seq 0 n)).
  { eapply Permutation_in; [exact H |].
    apply in_map, in_seq. lia. }
  apply in_seq in Hin. lia.
Qed.

(** On finite arrays with at least one row the value of cost_function is
    the cost over the reals. *)
Lemma cost_value_finite (X y theta : matrix) (m : Z) :
  finite_array X -> finite_array y -> finite_array theta ->
  ncols X = nrows theta -> nrows y = nrows X ->
  ncols y = 1%nat -> ncols theta = 1%nat ->
  (1 <= nrows X)%nat -> m <> 0%Z ->
  cost_value X y theta m = PyArr [Real (mse_R X y theta m)].
Proof.
  intros FX Fy Fth S1 S2 S3 S4 Hr Hm.
  pose proof (cost_scalar_mse X y theta m S4 Hm) as E.
  rewrite mse_cost_finite in E by (trivial; lia).
  unfold cost_scalar, cost_value in *.
  rewrite sum_rows_col in * by (simpl; congruence). simpl nrows in *.
  destruct (nrows X) as [| r]; [lia |].
  unfold py_mul, as_scalar in *. cbn [map] in *. rewrite E. reflexivity.
Qed.

Section Reorder.

Variables (AX Ay Ath AX' Ay' : matrix) (sigma : nat -> nat).

Hypothesis FX : finite_array AX.
Hypothesis Fy : finite_array Ay.
Hypothesis S2 : nrows Ay = nrows AX.
Hypothesis S3 : ncols Ay = 1%nat.
Hypothesis SX' : shape AX' = shape AX.
Hypothesis Sy' : shape Ay' = shape Ay.
Hypothesis Hperm :
  Permutation (map sigma (seq 0 (nrows AX))) (seq 0 (nrows AX)).
Hypothesis HX' :
  forall i k, (i < nrows AX)%nat -> (k < ncols AX)%nat ->
    get AX' i k = get AX (sigma i) k.
Hypothesis Hy' :
  forall i, (i < nrows AX)%nat -> get Ay' i 0 = get Ay (sigma i) 0.

Lemma reorder_finite_X : finite_array AX'.
Proof using FX SX' Hperm HX'.
  clear Fy S2 S3 Sy' Hy'.
  unfold shape in SX'. injection SX' as Hr Hc.
  intros i k Hi Hk. rewrite HX' by lia.
  apply FX; [apply perm_in_range; trivial; lia | lia].
Qed.

Lemma reorder_finite_y : finite_array Ay'.
Proof using Fy S2 S3 Sy' Hperm Hy'.
  clear FX SX' HX'.
  unfold shape in Sy'. injection Sy' as Hr Hc.
  intros i k Hi Hk. replace k with 0%nat by lia. rewrite Hy' by lia.
  apply Fy; [rewrite S2; apply perm_in_range; trivial; lia | lia].
Qed.

Lemma reorder_mse_R (m : Z) : mse_R AX' Ay' Ath m = mse_R AX Ay Ath m.
Proof using SX' Hperm HX' Hy'.
  clear FX Fy S2 S3 Sy'.
  unfold shape in SX'. injection SX' as Hr Hc.
  unfold mse_R. rewrite Hr. f_equal.
  rewrite <- (Rsum_perm (nrows AX)
                (fun i => (dot_R AX Ath i - entry Ay i 0)
                          * (dot_R AX Ath i - entry Ay i 0)) sigma Hperm).
  apply Rsum_ext. intros i Hi.
  assert (Hd : dot_R AX' Ath i = dot_R AX Ath (sigma i)).
  { unfold dot_R. rewrite Hc. apply Rsum_ext. intros k Hk.
    unfold entry. rewrite HX' by trivial. reflexivity. }
  assert (He : entry Ay' i 0 = entry Ay (sigma i) 0).
  { unfold entry. rewrite Hy' by trivial. reflexivity. }
  rewrite Hd, He. reflexivity.
Qed.

End Reorder.

(** X15.  In exact arithmetic the cost does not depend on the order of
    the examples: on finite arrays of conforming shapes with at least one
    row and m <> 0, cost_function returns the same number for X, y and for
    X', y' obtained by putting the rows of X and of y in another order,
    the same for both. *)
Theorem cost_function_ignores_row_order
    (X y theta X' y' : array) (AX Ay Ath AX' Ay' : matrix)
    (sigma : nat -> nat) (m : Z) (w : world) :
  contents X w = Some AX -> contents y w = Some Ay ->
  contents theta w = Some Ath ->
  contents X' w = Some AX' -> contents y' w = Some Ay' ->
  finite_array AX -> finite_array Ay -> finite_array Ath ->
  ncols AX = nrows Ath -> nrows Ay = nrows AX ->
  ncols Ay = 1%nat -> ncols Ath = 1%nat ->
  (1 <= nrows AX)%nat -> m <> 0%Z ->
  shape AX' = shape AX -> shape Ay' = shape Ay ->
  Permutation (map sigma (seq 0 (nrows AX))) (seq 0 (nrows AX)) ->
  (forall i k, (i < nrows AX)%nat -> (k < ncols AX)%nat ->
     get AX' i k = get AX (sigma i) k) ->
  (forall i, (i < nrows AX)%nat -> get Ay' i 0 = get Ay (sigma i) 0) ->
  exists (c : R) w1 w2,
    runs (cost_function X y theta m) w (PyArr [Real c]) w1 /\
    runs (cost_function X' y' theta m) w1 (PyArr [Real c]) w2.
Proof.
  intros HX Hy Hth HX' Hy' FX Fy Fth S1 S2 S3 S4 Hr Hm SX' Sy' Hperm EX Ey.
  pose proof (reorder_finite_X AX AX' sigma FX SX' Hperm EX) as FX'.
  pose proof (reorder_finite_y AX Ay Ay' sigma Fy S2 S3 Sy' Hperm Ey) as Fy'.
  pose proof SX' as SX''. pose proof Sy' as Sy''.
  unfold shape in SX'', Sy''. injection SX'' as Hr' Hc'.
  injection Sy'' as Hry Hcy.
  destruct (runs_cost_function X y theta AX Ay Ath m w)
    as (w1 & Run1 & Hal1); try congruence.
  destruct (runs_cost_function X' y' theta AX' Ay' Ath m w1)
    as (w2 & Run2 & _); try congruence;
    try (eapply contents_allocates; eassumption).
  rewrite cost_value_finite in Run1 by (trivial; congruence).
  rewrite cost_value_finite in Run2 by (trivial; congruence).
  rewrite (reorder_mse_R AX Ay Ath AX' Ay' sigma SX' Hperm EX Ey) in Run2.
  exists (mse_R AX Ay Ath m), w1, w2. split; assumption.
Qed.

Lemma cost_function_ignores_row_order_witness :
  exists (c : R) w1 w2,
    runs (cost_function (Array 0 false) (Array 1 false) (Array 2 false) 2)
         (World [ex_X; ex_y; ex_theta; ex_X_swapped; ex_y_swapped] [])
         (PyArr [Real c]) w1 /\
    runs (cost_function (Array 3 false) (Array 4 false) (Array 2 false) 2)
         w1 (PyArr [Real c]) w2.
Proof.
  apply (cost_function_ignores_row_order
           (Array 0 false) (Array 1 false) (Array 2 false)
           (Array 3 false) (Array 4 false)
           ex_X ex_y ex_theta ex_X_swapped ex_y_swapped
           (fun i => match i with O => 1%nat | _ => 0%nat end));
    try reflexivity; try lia; try (simpl; lia).
  - apply ex_finite_X.
  - apply ex_finite_y.
  - apply ex_finite_theta.
  - simpl. apply perm_swap.
  - intros i k Hi Hk. simpl in Hi, Hk.
    destruct i as [| [| i]], k as [| [| k]]; try lia; reflexivity.
  - intros i Hi. simpl in Hi.
    destruct i as [| [| i]]; try lia; reflexivity.
Defined.

(** *** Columns *)

Lemma col_mean_ext (A B : matrix) (j j' : nat) :
  nrows A = nrows B ->
  (forall i, (i < nrows B)%nat -> get A i j = get B i j') ->
  col_mean A j = col_mean B j'.
Proof.
  intros Hr H. unfold col_mean. rewrite Hr. f_equal.
  apply fsum_ext. exact H.
Qed.

Lemma col_var_ext (A B : matrix) (j j' : nat) :
  nrows A = nrows B ->
  (forall i, (i < nrows B)%nat -> get A i j = get B i j') ->
  col_var A j = col_var B j'.
Proof.
  intros Hr H. unfold col_var. rewrite Hr. f_equal.
  apply fsum_ext. intros i Hi.
  rewrite (H i Hi), (col_mean_ext A B j j' Hr H). reflexivity.
Qed.

Lemma col_std_ext (A B : matrix) (j j' : nat) :
  nrows A = nrows B ->
  (forall i, (i < nrows B)%nat -> get A i j = get B i j') ->
  col_std A j = col_std B j'.
Proof.
  intros Hr H. unfold col_std. rewrite (col_var_ext A B j j' Hr H).
  reflexivity.
Qed.

(** X17.  normalize treats each column on its own: for two arrays of one
    shape that have the same column j, the arrays that normalize returns
    have the same column j, whatever the other columns hold. *)
Theorem normalize_columns_are_independent
    (X X' : array) (A B : matrix) (j : nat) (w : world) :
  contents X w = Some A -> contents X' w = Some B ->
  shape A = shape B -> (j < ncols B)%nat ->
  (forall i, (i < nrows B)%nat -> get A i j = get B i j) ->
  exists r w1 r' w2 Z Z',
    runs (normalize X) w r w1 /\
    runs (normalize X') w1 r' w2 /\
    contents r w2 = Some Z /\
    contents r' w2 = Some Z' /\
    forall i, (i < nrows B)%nat -> get Z i j = get Z' i j.
Proof.
  intros HX HX' Hs Hj Hcol.
  unfold shape in Hs. injection Hs as Hr Hc.
  destruct (runs_normalize X A w HX) as (r & w1 & Run1 & Hc1 & Hal1).
  destruct (runs_normalize X' B w1 (contents_allocates _ _ _ _ Hal1 HX'))
    as (r' & w2 & Run2 & Hc2 & Hal2).
  exists r, w1, r', w2, (normalize_value A), (normalize_value B).
  split; [exact Run1 |]. split; [exact Run2 |].
  split; [eapply contents_allocates; eassumption |].
  split; [exact Hc2 |].
  intros i Hi. unfold normalize_value.
  rewrite !get_tab by lia.
  rewrite (Hcol i Hi), (col_mean_ext A B j j Hr Hcol),
    (col_std_ext A B j j Hr Hcol).
  reflexivity.
Qed.

Lemma normalize_columns_are_independent_witness :
  exists r w1 r' w2 Z Z',
    runs (normalize (Array 0 false)) (World [ex_features; ex_X] []) r w1 /\
    runs (normalize (Array 1 false)) w1 r' w2 /\
    contents r w2 = Some Z /\
    contents r' w2 = Some Z' /\
    get Z 0 0 = get Z' 0 0 /\ get Z 1 0 = get Z' 1 0.
Proof.
  destruct (normalize_columns_are_independent (Array 0 false) (Array 1 false)
              ex_features ex_X 0 (World [ex_features; ex_X] []))
    as (r & w1 & r' & w2 & Z & Z' & Run1 & Run2 & Hc & Hc' & Hcol);
    try reflexivity.
  - simpl. lia.
  - intros i Hi. simpl in Hi. destruct i as [| [| i]]; try lia; reflexivity.
  - exists r, w1, r', w2, Z, Z'. repeat split; trivial; apply Hcol; simpl; lia.
Defined.

Lemma Rsum_const (n : nat) (c : R) : Rsum n (fun _ => c) = INR n * c.
Proof.
  induction n as [| n IH]; [unfold Rsum; simpl; lra |].
  rewrite Rsum_S, IH, S_INR. lra.
Qed.

(** X18.  In exact arithmetic (no rounding, no overflow), a constant
    column comes out as NaN: for an array of finite entries with at least
    one row whose column j holds the same number in every row, every entry
    of column j of the array that normalize returns is NaN (0 / 0), not an
    infinity.  (With the roundings of float64 the mean computed for such a
    column can differ from its entries, see C9.) *)
Theorem normalize_constant_column_is_nan
    (X : array) (A : matrix) (j : nat) (c : R) (w : world) :
  contents X w = Some A ->
  finite_array A -> (1 <= nrows A)%nat -> (j < ncols A)%nat ->
  (forall i, (i < nrows A)%nat -> entry A i j = c) ->
  exists r w' Z,
    runs (normalize X) w r w' /\
    contents r w' = Some Z /\
    forall i, (i < nrows A)%nat -> get Z i j = NaN.
Proof.
  intros HX Hfin Hr Hj Hc.
  destruct (runs_normalize X A w HX) as (r & w' & Run & Hcont & _).
  exists r, w', (normalize_value A).
  split; [exact Run |]. split; [exact Hcont |].
  assert (Hm : INR (nrows A) <> 0) by (apply not_0_INR; lia).
  assert (Hmean : mean_R A j = c).
  { unfold mean_R. rewrite (Rsum_ext _ _ (fun _ => c)) by exact Hc.
    rewrite Rsum_const. field. exact Hm. }
  assert (Hvar : var_R A j = 0).
  { unfold var_R. rewrite Rsum_zero; [unfold Rdiv; ring |].
    intros i Hi. rewrite Hmean, (Hc i Hi). ring. }
  intros i Hi. unfold normalize_value. rewrite get_tab by trivial.
  rewrite (get_finite A), col_mean_finite, col_std_finite by trivial.
  unfold std_R. rewrite Hvar, sqrt_0, Hmean, (Hc i Hi). simpl.
  replace (c - c) with 0 by ring. rewrite Rsign_0. reflexivity.
Qed.

Lemma normalize_constant_column_is_nan_witness :
  exists r w' Z,
    runs (normalize (Array 0 false)) (World [ex_features] []) r w' /\
    contents r w' = Some Z /\
    get Z 0 0 = NaN /\ get Z 1 0 = NaN.
Proof.
  destruct (normalize_constant_column_is_nan (Array 0 false) ex_features 0 1
              (World [ex_features] []))
    as (r & w' & Z & Run & Hc & Hnan).
  - reflexivity.
  - apply ex_features_finite.
  - simpl. lia.
  - simpl. lia.
  - intros i Hi. simpl in Hi. destruct i as [| [| i]]; try lia; reflexivity.
  - exists r, w', Z. repeat split; trivial; apply Hnan; simpl; lia.
Defined.

(** *** The design matrix of load_data *)

Lemma get_with_bias_feature (G : matrix) (i j : nat) :
  (i < nrows G)%nat -> (j < ncols G)%nat ->
  get (with_bias G) i (S j) = get G i j.
Proof.
  intros Hi Hj. unfold with_bias. rewrite get_tab by lia.
  simpl. rewrite Nat.sub_0_r. reflexivity.
Qed.

(** X16.  In exact arithmetic (no rounding, no overflow): from a frame of
    finite entries with at least one row and two feature columns, none of
    standard deviation 0, load_data returns a design matrix whose feature
    columns (columns 1 to n-1) each have mean 0 and standard deviation 1,
    behind a bias column of ones that was not rescaled (its mean is 1 and
    its standard deviation 0). *)
Theorem load_data_standardizes_features (data : matrix) (w : world) :
  let m := nrows data in
  let k := (ncols data - 1)%nat in
  let features := tab m k (get data) in
  (1 <= m)%nat -> (2 <= k)%nat ->
  finite_array features ->
  (forall j, (j < k)%nat -> std_R features j <> 0) ->
  exists X y theta w' AX,
    runs (load_data data) w
         (X, y, theta, Z.of_nat m, Z.of_nat (ncols data)) w' /\
    contents X w' = Some AX /\
    shape AX = (m, ncols data) /\
    col_mean AX 0 = Real 1 /\ col_std AX 0 = Real 0 /\
    forall j, (1 <= j < ncols data)%nat ->
      col_mean AX j = Real 0 /\ col_std AX j = Real 1.
Proof.
  intros m k features Hm Hk Hfin Hstd.
  destruct (runs_load_data data w)
    as (X & y & theta & w' & Run & HX & _); [lia |].
  fold m k features in Run, HX.
  destruct (Nat.ltb_spec 1 k); [| lia].
  rewrite (normalize_value_finite features Hfin Hm Hstd) in HX.
  replace (S k) with (ncols data) in Run by (unfold k; lia).
  set (Z := standardized features) in *.
  exists X, y, theta, w', (with_bias Z).
  split; [exact Run |]. split; [exact HX |].
  split; [unfold shape; simpl; f_equal; unfold k; lia |].
  assert (Hones : forall i, (i < m)%nat -> get (with_bias Z) i 0 = Real 1).
  { intros i Hi. unfold with_bias. rewrite get_tab by (simpl; lia).
    reflexivity. }
  assert (Hmean0 : col_mean (with_bias Z) 0 = Real 1).
  { unfold col_mean. simpl nrows.
    rewrite (fsum_Real _ _ (fun _ => 1)) by exact Hones.
    rewrite Rsum_const, fdiv_Real by (apply not_0_INR; lia).
    f_equal. field. apply not_0_INR. lia. }
  split; [exact Hmean0 |]. split.
  - unfold col_std, col_var. simpl nrows.
    rewrite (fsum_Real _ _ (fun _ => 0)).
    + rewrite Rsum_const, fdiv_Real by (apply not_0_INR; lia).
      rewrite fsqrt_Real by (unfold Rdiv; rewrite Rmult_0_r, Rmult_0_l; lra).
      f_equal. unfold Rdiv. rewrite Rmult_0_r, Rmult_0_l. apply sqrt_0.
    + intros i Hi. rewrite Hmean0, Hones by exact Hi.
      simpl. f_equal. ring.
  - intros j Hj. destruct j as [| j]; [lia |].
    assert (Hjk : (j < k)%nat) by (unfold k; lia).
    assert (Hcol : forall i, (i < nrows Z)%nat ->
                     get (with_bias Z) i (S j) = get Z i j).
    { intros i Hi. apply get_with_bias_feature; trivial. }
    rewrite (col_mean_ext (with_bias Z) Z (S j) j eq_refl Hcol).
    rewrite (col_std_ext (with_bias Z) Z (S j) j eq_refl Hcol).
    unfold Z.
    rewrite col_mean_finite, col_std_finite
      by (trivial; apply finite_standardized).
    rewrite mean_R_standardized, std_R_standardized by auto.
    split; reflexivity.
Qed.

Lemma ex_frame_features_finite : finite_array (tab 2 2 (get ex_frame)).
Proof.
  intros i j Hi Hj. simpl in Hi, Hj.
  destruct i as [| [| i]], j as [| [| j]]; simpl; trivial; lia.
Qed.

Lemma ex_frame_features_std (j : nat) :
  (j < 2)%nat -> std_R (tab 2 2 (get ex_frame)) j <> 0.
Proof.
  intros Hj. unfold std_R.
  replace (var_R (tab 2 2 (get ex_frame)) j) with 1.
  - rewrite sqrt_1. lra.
  - destruct j as [| [| j]]; [| | lia]; eval_stats; lra.
Qed.

Lemma load_data_standardizes_features_witness :
  exists X y theta w' AX,
    runs (load_data ex_frame) empty_world (X, y, theta, 2%Z, 3%Z) w' /\
    contents X w' = Some AX /\
    col_mean AX 1 = Real 0 /\ col_std AX 1 = Real 1 /\
    col_mean AX 2 = Real 0 /\ col_std AX 2 = Real 1.
Proof.
  destruct (load_data_standardizes_features ex_frame empty_world)
    as (X & y & theta & w' & AX & Run & HX & _ & _ & _ & Hf).
  - simpl. lia.
  - simpl. lia.
  - apply ex_frame_features_finite.
  - apply ex_frame_features_std.
  - exists X, y, theta, w', AX.
    split; [exact Run |]. split; [exact HX |].
    destruct (Hf 1%nat) as [H1 H2]; [simpl; lia |].
    destruct (Hf 2%nat) as [H3 H4]; [simpl; lia |].
    auto.
Defined.
